(** * gologloki: the Loki adapter of golog, embedded and verified

    The development follows the three source files of the package:
    [gologloki_types.go] (entries, streams, payload),
    [gologloki_config.go] (the configuration record and its defaults) and
    [gologloki.go] (Log, Format, convertToString, flush, sendWithRetry,
    send, NewLokiAdapter).

    Go maps are finite maps ([gmap]); Go's [int], [int64] and
    [time.Duration] are integers in [Z] with the 64-bit wrap-around written
    out where the code computes with them; effects (standard output, sleeping,
    the HTTP exchange, the clock) are threaded through a small state monad
    over a [world]. *)

From stdpp Require Import base numbers option list strings pretty gmap fin_maps sorting.

Open Scope Z_scope.

(** ** What the package imports

    [golog.Level] with its methods [IsEnabled] and [String] belongs to the
    golog façade; the adapter only calls them. *)

Class GologLevel (L : Type) := {
  IsEnabled : L → L → bool;      (* cfgLevel.IsEnabled(recordLevel) *)
  LevelString : L → string;      (* level.String() *)
  DebugLevel : L                 (* golog.DebugLevel *)
}.

(** Values of the dynamic type [interface{}] found in [log.Data.Fields].
    The integer kinds share ["%d"]; floats are kept abstract together with
    their ["%f"] rendering; [VOther] is every value that is none of the
    kinds [convertToString] switches on. *)
Inductive value (F D : Type) : Type :=
  | VString (s : string)
  | VInt (z : Z)          (* int, int8, int16, int32, int64 *)
  | VUint (n : N)         (* uint, uint8, uint16, uint32, uint64 *)
  | VFloat (f : F)        (* float32, float64 *)
  | VBool (b : bool)
  | VOther (d : D).
Arguments VString {F D} s.
Arguments VInt {F D} z.
Arguments VUint {F D} n.
Arguments VFloat {F D} f.
Arguments VBool {F D} b.
Arguments VOther {F D} d.

(** A Go call that returns [(x, err)]. *)
Inductive result (A : Type) : Type :=
  | Ok (a : A)
  | Err (msg : string).
Arguments Ok {A} a.
Arguments Err {A} msg.

#[global] Instance result_eq_dec `{EqDecision A} : EqDecision (result A).
Proof. solve_decision. Defined.

(** ** gologloki_types.go *)

(** [time.Time] is represented by what [UnixNano] returns for it. *)
Definition Time := Z.

Record lokiLogEntry := {
  Timestamp : Time;
  Line : string;
  Level : string;
  Labels : gmap string string
}.

Record lokiStream := {
  Stream : gmap string string;
  Values : list (string * string)     (* [][2]string *)
}.

Record lokiPayload := { Streams : list lokiStream }.

(** The request [send] builds: POST, the URL, one header, the body. *)
Record request := {
  req_method : string;
  req_url : string;
  req_content_type : string;
  req_body : string
}.

(** Outcome of [client.Do]: a transport error or a status code. *)
Inductive response :=
  | TransportError (msg : string)
  | Status (code : Z).

(** The library functions the adapter calls: ["%f"] formatting,
    [json.Marshal] at the three types it is used at, and the URL check of
    [http.NewRequest]. *)
Class GoRuntime (F D : Type) := {
  sprintf_f : F → string;
  marshal_fields : gmap string (value F D) → result string;
  marshal_labels : gmap string string → result string;
  marshal_payload : lokiPayload → result string;
  new_request_error : string → option string
}.

(** ** Machine integers and characters *)

(** The line feed that ends every diagnostic, code 10. *)
Definition nl : string :=
  String (Ascii.Ascii false true false true false false false false) "".

Definition wrap64 (z : Z) : Z := (z + 2 ^ 63) `mod` 2 ^ 64 - 2 ^ 63.
Definition max_int : Z := 2 ^ 63 - 1.
Definition min_int : Z := - 2 ^ 63.

(** ** gologloki_config.go *)

Record LokiConfig (L : Type) := {
  cfg_Enable : bool;
  cfg_Level : L;
  cfg_Url : string;
  cfg_Labels : gmap string string;
  cfg_BatchSize : Z;
  cfg_BatchInterval : Z;           (* time.Duration, nanoseconds *)
  cfg_RetryCount : Z;
  cfg_RetryDelay : Z;
  cfg_Timeout : Z
}.
Arguments cfg_Enable {L} _.
Arguments cfg_Level {L} _.
Arguments cfg_Url {L} _.
Arguments cfg_Labels {L} _.
Arguments cfg_BatchSize {L} _.
Arguments cfg_BatchInterval {L} _.
Arguments cfg_RetryCount {L} _.
Arguments cfg_RetryDelay {L} _.
Arguments cfg_Timeout {L} _.

Definition Second : Z := 1000000000.

Definition defaultLokiConfig `{!GologLevel L} (url : string) : LokiConfig L :=
  {| cfg_Enable := true;
     cfg_Level := DebugLevel;
     cfg_Url := url;
     cfg_Labels := {[ "job" := "app_logs" ]};
     cfg_BatchSize := 100;
     cfg_BatchInterval := 5 * Second;
     cfg_RetryCount := 3;
     cfg_RetryDelay := 1 * Second;
     cfg_Timeout := 10 * Second |}.

(** ** The record handed over by golog *)

Record Data (F D : Type) := {
  Fields : option (gmap string (value F D));    (* nil or a map *)
  Name : string;
  WithName : bool;
  Error : option string                          (* nil or err.Error() *)
}.
Arguments Fields {F D} _.
Arguments Name {F D} _.
Arguments WithName {F D} _.
Arguments Error {F D} _.

Record golog_Log (L F D : Type) := {
  log_Timestamp : Time;
  log_Level : L;
  log_Message : string;
  log_Data : Data F D
}.
Arguments log_Timestamp {L F D} _.
Arguments log_Level {L F D} _.
Arguments log_Message {L F D} _.
Arguments log_Data {L F D} _.

(** ** Effects *)

Inductive event :=
  | EvPrint (s : string)        (* fmt.Printf *)
  | EvSleep (d : Z)             (* time.Sleep *)
  | EvPost (r : request).       (* client.Do *)

(** The world outside the adapter: the backend answers the [k]-th exchange
    with [w_backend k], and that exchange takes [w_latency k] nanoseconds
    from the request to the answer (or to the transport error);
    [w_events] is the history, oldest first; [w_now] is the clock read by
    [time.Now]. *)
Record world := {
  w_backend : nat → response;
  w_latency : nat → Z;
  w_events : list event;
  w_now : Time
}.

Definition M (A : Type) : Type := world → A * world.

#[global] Instance M_ret : MRet M := λ A a w, (a, w).
#[global] Instance M_bind : MBind M := λ A B f m w, let '(a, w') := m w in f a w'.

Definition emit (e : event) : M unit := λ w,
  (tt, {| w_backend := w_backend w; w_latency := w_latency w;
          w_events := w_events w ++ [e]; w_now := w_now w |}).

Definition is_post (e : event) : bool := match e with EvPost _ => true | _ => false end.
Definition is_sleep (e : event) : bool := match e with EvSleep _ => true | _ => false end.
Definition is_print (e : event) : bool := match e with EvPrint _ => true | _ => false end.

Definition posts (w : world) : list event := filter is_post (w_events w).
Definition sleeps (w : world) : list event := filter is_sleep (w_events w).
Definition prints (w : world) : list event := filter is_print (w_events w).

Definition Printf (s : string) : M unit := emit (EvPrint s).

Definition Sleep (d : Z) : M unit := λ w,
  (tt, {| w_backend := w_backend w;
          w_latency := w_latency w;
          w_events := w_events w ++ [EvSleep d];
          w_now := w_now w + Z.max 0 d |}).

Definition Now : M Time := λ w, (w_now w, w).

(** [client.Do] returns when the exchange is over: the clock has moved on
    by the time the exchange took. *)
Definition Do (r : request) : M response := λ w,
  (w_backend w (length (posts w)),
   {| w_backend := w_backend w;
      w_latency := w_latency w;
      w_events := w_events w ++ [EvPost r];
      w_now := w_now w + Z.max 0 (w_latency w (length (posts w))) |}).

(** ** gologloki.go *)

(** A buffered channel: its capacity and the entries waiting in it, oldest
    first. A channel of capacity 0 hands an entry over only to a receiver
    that is waiting, which this record does not describe; the statements
    about a full queue are made for a positive capacity. *)
Record chan := {
  chan_cap : Z;
  chan_buf : list lokiLogEntry
}.

(** The adapter's own state. The HTTP client, the quit channel and the wait
    group carry no data the functions below read. *)
Record lokiAdapter (L : Type) := {
  cfg : LokiConfig L;
  queue : chan;
  buffer : list lokiLogEntry;
  lastFlush : Time
}.
Arguments cfg {L} _.
Arguments queue {L} _.
Arguments buffer {L} _.
Arguments lastFlush {L} _.

Section Adapter.
Context {L F D : Type} `{!GologLevel L} `{!GoRuntime F D}.

Implicit Types (a : lokiAdapter L) (log : golog_Log L F D).

(** *** Format *)
Definition Format log : golog_Log L F D :=
  if bool_decide (Name (log_Data log) ≠ "") then
    let name' := "[" +:+ Name (log_Data log) +:+ "]: " in
    {| log_Timestamp := log_Timestamp log;
       log_Level := log_Level log;
       log_Message := name' +:+ log_Message log;
       log_Data := {| Fields := Fields (log_Data log);
                      Name := name';
                      WithName := WithName (log_Data log);
                      Error := Error (log_Data log) |} |}
  else log.

(** *** convertToString *)
Definition convertToString (v : value F D) : string * bool :=
  match v with
  | VString s => (s, true)
  | VInt z => (pretty z, true)
  | VUint n => (pretty n, true)
  | VFloat f => (sprintf_f f, true)
  | VBool b => ((if b then "true" else "false"), true)
  | VOther _ => ("", false)
  end.

(** [for k, v := range m { body }] over a map: the body is run once per
    key, in an order Go leaves open. *)
Definition range {V S : Type} (body : string → V → S → S) (m : gmap string V) (s : S) : S :=
  map_fold body s m.

(** Lines 43-45: copy the static labels. *)
Definition copyStatic (static labels : gmap string string) : gmap string string :=
  range (λ k v acc, <[k := v]> acc) static labels.

(** Lines 47-53: promote primitive fields. *)
Definition promoteFields (fields : option (gmap string (value F D)))
    (labels : gmap string string) : gmap string string :=
  match fields with
  | None => labels
  | Some fs =>
      range (λ k v acc,
               let '(strVal, ok) := convertToString v in
               if ok then <[k := strVal]> acc else acc) fs labels
  end.

(** Lines 55-57. *)
Definition nameLabel log (labels : gmap string string) : gmap string string :=
  if WithName (log_Data log) && bool_decide (Name (log_Data log) ≠ "")
  then <["logger_name" := Name (log_Data log)]> labels
  else labels.

(** Lines 43-59, on the record as [Format] left it. *)
Definition entryLabels a log : gmap string string :=
  <["level" := LevelString (log_Level log)]>
    (nameLabel log
       (promoteFields (Fields (log_Data log))
          (copyStatic (cfg_Labels (cfg a)) ∅))).

(** Lines 61-71. *)
Definition withError log (buf : string) : string :=
  match Error (log_Data log) with
  | None => buf
  | Some err =>
      let buf := if (0 <? Z.of_nat (String.length buf)) then buf +:+ " - " else buf in
      buf +:+ "Error: " +:+ err
  end.

(** Lines 73-90. *)
Definition withFields log (labels : gmap string string) (buf : string) : string :=
  match Fields (log_Data log) with
  | None => buf
  | Some fs =>
      let jsonFields :=
        range (λ k v acc,
                 if bool_decide (is_Some (labels !! k)) then acc else <[k := v]> acc)
              fs (∅ : gmap string (value F D)) in
      if (0 <? Z.of_nat (size jsonFields)) then
        match marshal_fields jsonFields with
        | Ok jsonData =>
            let buf := if (0 <? Z.of_nat (String.length buf)) then buf +:+ " | " else buf in
            buf +:+ jsonData
        | Err _ => buf
        end
      else buf
  end.

(** Lines 35-92: the entry built from a record that passed the gate. *)
Definition makeEntry a log : lokiLogEntry :=
  let log := Format log in
  let labels := entryLabels a log in
  {| Timestamp := log_Timestamp log;
     Level := LevelString (log_Level log);
     Labels := labels;
     Line := withFields log labels (withError log (log_Message log)) |}.

(** Lines 94-98: the non-blocking send on the queue. *)
Definition enqueue a (entry : lokiLogEntry) : M (lokiAdapter L) :=
  if (Z.of_nat (length (chan_buf (queue a))) <? chan_cap (queue a)) then
    mret {| cfg := cfg a;
            queue := {| chan_cap := chan_cap (queue a);
                        chan_buf := chan_buf (queue a) ++ [entry] |};
            buffer := buffer a;
            lastFlush := lastFlush a |}
  else
    Printf ("Loki queue overflow, dropping log: " +:+ Line entry +:+ nl) ;; mret a.

(** *** Log *)
Definition Log a log : M (lokiAdapter L) :=
  if negb (cfg_Enable (cfg a)) || negb (IsEnabled (cfg_Level (cfg a)) (log_Level log))
  then mret a
  else enqueue a (makeEntry a log).

(** *** send *)
Definition send a (payload : lokiPayload) : M bool :=
  match marshal_payload payload with
  | Err err =>
      Printf ("Error marshaling Loki payload: " +:+ err +:+ nl) ;; mret false
  | Ok jsonData =>
      match new_request_error (cfg_Url (cfg a)) with
      | Some err =>
          Printf ("Error creating Loki request: " +:+ err +:+ nl) ;; mret false
      | None =>
          let req := {| req_method := "POST";
                        req_url := cfg_Url (cfg a);
                        req_content_type := "application/json";
                        req_body := jsonData |} in
          resp ← Do req;
          match resp with
          | TransportError err =>
              Printf ("Error sending to Loki: " +:+ err +:+ nl) ;; mret false
          | Status code =>
              if (200 <=? code) && (code <? 300) then mret true
              else
                Printf ("Loki returned error status: " +:+ pretty code +:+ nl) ;; mret false
          end
      end
  end.

(** *** sendWithRetry

    A [for] loop over the attempts [0 .. RetryCount] whose body may leave
    the function: [Return b] is Go's [return b], [Next] falls through to
    the next iteration. *)
Inductive flow := Return (b : bool) | Next.

Fixpoint for_attempts (attempts : list Z) (body : Z → M flow) (after : M bool) : M bool :=
  match attempts with
  | [] => after
  | attempt :: rest =>
      r ← body attempt;
      match r with
      | Return b => mret b
      | Next => for_attempts rest body after
      end
  end.

(** Lines 223-227: the body of the loop. *)
Definition sendWithRetry_body a (payload : lokiPayload) (attempt : Z) : M flow :=
  (if (0 <? attempt)
   then Sleep (wrap64 (cfg_RetryDelay (cfg a) * attempt))
   else mret tt) ;;
  ok ← send a payload;
  mret (Return ok).

Definition sendWithRetry a (payload : lokiPayload) : M bool :=
  for_attempts (seqZ 0 (cfg_RetryCount (cfg a) + 1))
    (sendWithRetry_body a payload)
    (Printf ("Failed to send logs to Loki after " +:+ pretty (cfg_RetryCount (cfg a))
             +:+ " attempts" +:+ nl) ;; mret true).

(** *** flush *)

(** Lines 180-203: one pass over the snapshot, filling [streams]. *)
Fixpoint groupEntries (bufferCopy : list lokiLogEntry)
    (streams : gmap string lokiStream) : M (gmap string lokiStream) :=
  match bufferCopy with
  | [] => mret streams
  | entry :: rest =>
      match marshal_labels (Labels entry) with
      | Err err =>
          Printf ("Error marshalling labels: " +:+ err +:+ nl) ;; groupEntries rest streams
      | Ok labelsKey =>
          let stream :=
            match streams !! labelsKey with
            | Some stream => stream
            | None => {| Stream := Labels entry; Values := [] |}
            end in
          let stream :=
            {| Stream := Stream stream;
               Values := Values stream ++ [(pretty (Timestamp entry), Line entry)] |} in
          groupEntries rest (<[labelsKey := stream]> streams)
      end
  end.

(** Lines 178-211: the payload of one flush. *)
Definition buildPayload (bufferCopy : list lokiLogEntry) : M lokiPayload :=
  streams ← groupEntries bufferCopy ∅;
  mret {| Streams := range (λ _ stream acc, acc ++ [stream]) streams [] |}.

Definition flush a : M (lokiAdapter L) :=
  if bool_decide (length (buffer a) = 0%nat) then mret a
  else
    let bufferCopy := buffer a in
    let a := {| cfg := cfg a; queue := queue a; buffer := []; lastFlush := lastFlush a |} in
    payload ← buildPayload bufferCopy;
    ok ← sendWithRetry a payload;
    if (ok : bool) then
      t ← Now;
      mret {| cfg := cfg a; queue := queue a; buffer := buffer a; lastFlush := t |}
    else mret a.

(** *** NewLokiAdapter

    [make] panics on a negative size; [None] stands for the panic. The
    worker goroutine started at the end is outside this model. *)
Definition make_chan (n : Z) : option chan :=
  if (n <? 0) then None else Some {| chan_cap := n; chan_buf := [] |}.

Definition make_slice (capacity : Z) : option (list lokiLogEntry) :=
  if (capacity <? 0) then None else Some [].

Definition NewLokiAdapter (c : LokiConfig L) : M (option (lokiAdapter L)) :=
  match make_chan (wrap64 (cfg_BatchSize c * 10)), make_slice (cfg_BatchSize c) with
  | Some q, Some b =>
      t ← Now;
      mret (Some {| cfg := c; queue := q; buffer := b; lastFlush := t |})
  | _, _ => mret (None : option (lokiAdapter L))
  end.

Definition NewDefaultLokiAdapter (url : string) : M (option (lokiAdapter L)) :=
  NewLokiAdapter (defaultLokiConfig url).

(** *** batchProcessor

    The worker is a [for] loop around a [select] with three cases. Which
    case fires is decided outside the function (the queue, the ticker, the
    quit channel); the model takes that choice from a schedule and runs one
    case body per choice. *)

(** [time.Since(t)]: the time elapsed since [t], clamped to an [int64]
    duration as [Time.Sub] does. *)
Definition Since (t : Time) : M Z :=
  t' ← Now;
  mret (Z.max min_int (Z.min max_int (t' - t))).

(** Lines 136-143. The case needs an entry waiting in the queue; with an
    empty queue it cannot be taken and the adapter is returned as it is. *)
Definition onEntry a : M (lokiAdapter L) :=
  match chan_buf (queue a) with
  | [] => mret a
  | entry :: rest =>
      let a := {| cfg := cfg a;
                  queue := {| chan_cap := chan_cap (queue a); chan_buf := rest |};
                  buffer := buffer a ++ [entry];
                  lastFlush := lastFlush a |} in
      if (cfg_BatchSize (cfg a) <=? Z.of_nat (length (buffer a)))
      then flush a
      else mret a
  end.

(** Lines 145-153. *)
Definition onTick a : M (lokiAdapter L) :=
  let bufferLen := Z.of_nat (length (buffer a)) in
  let lastFlush := lastFlush a in
  if (0 <? bufferLen) then
    elapsed ← Since lastFlush;
    if (cfg_BatchInterval (cfg a) <=? elapsed) then flush a else mret a
  else mret a.

(** Lines 154-161; the worker returns after it. *)
Definition onQuit a : M (lokiAdapter L) :=
  let bufferLen := Z.of_nat (length (buffer a)) in
  if (0 <? bufferLen) then flush a else mret a.

Inductive ready := EntryReady | TickReady | QuitReady.

(** The loop of lines 134-163 along a schedule; the flag tells whether the
    worker has returned. *)
Fixpoint batchProcessor_loop (schedule : list ready) a : M (lokiAdapter L * bool) :=
  match schedule with
  | [] => mret (a, false)
  | EntryReady :: rest => a ← onEntry a; batchProcessor_loop rest a
  | TickReady :: rest => a ← onTick a; batchProcessor_loop rest a
  | QuitReady :: _ => a ← onQuit a; mret (a, true)
  end.

(** [time.NewTicker] panics unless the interval is positive; [None] stands
    for the panic. *)
Definition batchProcessor (schedule : list ready) a : M (option (lokiAdapter L * bool)) :=
  if (cfg_BatchInterval (cfg a) <=? 0) then mret (None : option (lokiAdapter L * bool))
  else r ← batchProcessor_loop schedule a; mret (Some r).

(** *** Producers and the worker together

    [Log] only touches the queue and the worker's [flush] never reads it, so
    every interleaving of producers with the worker amounts to a sequence of
    whole [Log] calls and whole [select] cases. The flag is [true] once the
    worker has returned; later choices of the schedule are then void. *)
Inductive action :=
  | Submit (log : golog_Log L F D)
  | Select (r : ready).

Fixpoint run (actions : list action) a (returned : bool) : M (lokiAdapter L * bool) :=
  match actions with
  | [] => mret (a, returned)
  | Submit log :: rest => a ← Log a log; run rest a returned
  | Select r :: rest =>
      if returned then run rest a returned
      else
        match r with
        | EntryReady => a ← onEntry a; run rest a false
        | TickReady => a ← onTick a; run rest a false
        | QuitReady => a ← onQuit a; run rest a true
        end
  end.

(** Successive [Log] calls of one producer. *)
Definition submitAll (logs : list (golog_Log L F D)) a : M (lokiAdapter L * bool) :=
  run (Submit <$> logs) a false.

(** *** Vocabulary of the statements below *)

(** The record passes the gate of line 31. *)
Definition accepted a log : Prop :=
  cfg_Enable (cfg a) = true ∧ IsEnabled (cfg_Level (cfg a)) (log_Level log) = true.

(** The label a structured field contributes under key [k], if any. *)
Definition promoted (fields : option (gmap string (value F D))) (k : string) : option string :=
  fs ← fields;
  v ← fs !! k;
  if (convertToString v).2 then Some (convertToString v).1 else None.

(** The pair an entry contributes to its stream (lines 196-200). *)
Definition valueOf (entry : lokiLogEntry) : string * string :=
  (pretty (Timestamp entry), Line entry).

(** The queue cannot take one more entry. *)
Definition full (q : chan) : Prop := chan_cap q ≤ Z.of_nat (length (chan_buf q)).

(** The diagnostic of line 97. *)
Definition overflowMessage (entry : lokiLogEntry) : string :=
  "Loki queue overflow, dropping log: " +:+ Line entry +:+ nl.

(** The entries of a snapshot whose labels serialise to the key [k]. *)
Definition withKey (k : string) (entries : list lokiLogEntry) : list lokiLogEntry :=
  filter (λ e, marshal_labels (Labels e) = Ok k) entries.

(** The entries of a snapshot that carry the label set [labels]. *)
Definition withLabels (labels : gmap string string) (entries : list lokiLogEntry)
    : list lokiLogEntry :=
  filter (λ e, Labels e = labels) entries.

(** The stream stored under key [k] once the loop has gone over [entries],
    starting from the stream [before] (if any) stored there. *)
Definition grown (before : option lokiStream) (k : string)
    (entries : list lokiLogEntry) : option lokiStream :=
  match before, withKey k entries with
  | Some s, mine => Some {| Stream := Stream s; Values := Values s ++ (valueOf <$> mine) |}
  | None, [] => None
  | None, first :: mine =>
      Some {| Stream := Labels first; Values := valueOf <$> (first :: mine) |}
  end.

(** The fields that lines 75-79 collect for the trailing JSON. *)
Definition jsonFieldsOf (fs : gmap string (value F D)) (labels : gmap string string)
    : gmap string (value F D) :=
  range (λ k v acc,
           if bool_decide (is_Some (labels !! k)) then acc else <[k := v]> acc)
        fs (∅ : gmap string (value F D)).

(** The request [send] posts for a body. *)
Definition requestFor a (jsonData : string) : request :=
  {| req_method := "POST";
     req_url := cfg_Url (cfg a);
     req_content_type := "application/json";
     req_body := jsonData |}.

Definition is_Ok {A} (r : result A) : bool :=
  match r with Ok _ => true | Err _ => false end.

(** The entries of a snapshot whose labels serialise. *)
Definition serialisable (entries : list lokiLogEntry) : list lokiLogEntry :=
  filter (λ e, is_Ok (marshal_labels (Labels e))) entries.

(** The buffer is below the size threshold and the queue within its
    capacity. *)
Definition within_bounds a : Prop :=
  Z.of_nat (length (buffer a)) < cfg_BatchSize (cfg a) ∧
  Z.of_nat (length (chan_buf (queue a))) ≤ chan_cap (queue a).

(** Same configuration and same queue capacity. *)
Definition same_setup a a' : Prop :=
  cfg a' = cfg a ∧ chan_cap (queue a') = chan_cap (queue a).

(** The number of (timestamp, line) pairs in a payload. *)
Definition payloadSize (p : lokiPayload) : nat :=
  sum_list_with (λ s, length (Values s)) (Streams p).

(** The same count over the map the grouping loop fills. *)
Definition streamsSize (streams : gmap string lokiStream) : nat :=
  sum_list_with (λ kv, length (Values kv.2)) (map_to_list streams).

End Adapter.

(** ** A concrete façade and runtime

    Test doubles for what the package imports, used to run the model on
    concrete records: four severities ordered by rank, floats with an
    integral value, [unit] for every non-primitive field value, and a
    plain rendering of maps and payloads as JSON text. *)
Module Demo.

Inductive level := LDebug | LInfo | LWarn | LError.

Definition rank (l : level) : Z :=
  match l with LDebug => 0 | LInfo => 1 | LWarn => 2 | LError => 3 end.

Definition level_name (l : level) : string :=
  match l with
  | LDebug => "debug" | LInfo => "info" | LWarn => "warn" | LError => "error"
  end.

#[global] Instance demo_level : GologLevel level := {|
  IsEnabled := λ configured l, rank configured <=? rank l;
  LevelString := level_name;
  DebugLevel := LDebug
|}.

(** The double-quote character, code 34. *)
Definition dq : string :=
  String (Ascii.Ascii false true false false false true false false) "".
Definition quoted (s : string) : string := dq +:+ s +:+ dq.

Fixpoint join (sep : string) (parts : list string) : string :=
  match parts with
  | [] => ""
  | [p] => p
  | p :: rest => p +:+ sep +:+ join sep rest
  end.

Definition render_value (v : value Z unit) : string :=
  match v with
  | VString s => quoted s
  | VInt z => pretty z
  | VUint n => pretty n
  | VFloat f => pretty f +:+ ".000000"
  | VBool b => if b then "true" else "false"
  | VOther _ => "{}"
  end.

Definition render_object {V : Type} (render : V → string) (m : gmap string V) : string :=
  "{" +:+ join "," ((λ kv, quoted kv.1 +:+ ":" +:+ render kv.2) <$> map_to_list m) +:+ "}".

Definition render_pair (p : string * string) : string :=
  "[" +:+ quoted p.1 +:+ "," +:+ quoted p.2 +:+ "]".

Definition render_stream (s : lokiStream) : string :=
  "{" +:+ quoted "stream" +:+ ":" +:+ render_object quoted (Stream s) +:+ ","
      +:+ quoted "values" +:+ ":[" +:+ join "," (render_pair <$> Values s) +:+ "]}".

Definition render_payload (p : lokiPayload) : string :=
  "{" +:+ quoted "streams" +:+ ":[" +:+ join "," (render_stream <$> Streams p) +:+ "]}".

#[global] Instance demo_runtime : GoRuntime Z unit := {|
  sprintf_f := λ f, pretty f +:+ ".000000";
  marshal_fields := λ m, Ok (render_object render_value m);
  marshal_labels := λ m, Ok (render_object quoted m);
  marshal_payload := λ p, Ok (render_payload p);
  new_request_error := λ url, if bool_decide (url = "") then Some "empty url" else None
|}.

(** A backend that fails its first [n] exchanges with status 500 and
    answers 204 from then on. *)
Definition failing_first (n : nat) : nat → response :=
  λ k, if (k <? n)%nat then Status 500 else Status 204.

(** The world at the start of a run: no history, the given backend, every
    exchange taking three milliseconds. *)
Definition world0 (backend : nat → response) : world :=
  {| w_backend := backend;
     w_latency := λ _, 3000000;
     w_events := [];
     w_now := 1700000000 * Second |}.

(** A world whose backend accepts every exchange. *)
Definition w0 : world := world0 (failing_first 0).

Definition config0 : LokiConfig level := defaultLokiConfig "http://loki:3100/loki/api/v1/push".

Definition adapter0 : lokiAdapter level :=
  {| cfg := config0;
     queue := {| chan_cap := 1000; chan_buf := [] |};
     buffer := [];
     lastFlush := 0 |}.

Definition record0 (l : level) (msg name : string) (withName : bool)
    (fields : option (gmap string (value Z unit))) (err : option string) : golog_Log level Z unit :=
  {| log_Timestamp := 1700000000 * Second + 42;
     log_Level := l;
     log_Message := msg;
     log_Data := {| Fields := fields; Name := name; WithName := withName; Error := err |} |}.

(** An adapter with the static labels a=1 and job=api, batch size 2. *)
Definition adapterA : lokiAdapter level :=
  {| cfg := {| cfg_Enable := true;
               cfg_Level := LInfo;
               cfg_Url := "http://loki:3100/loki/api/v1/push";
               cfg_Labels := {[ "a" := "1"; "job" := "api" ]};
               cfg_BatchSize := 2;
               cfg_BatchInterval := 5 * Second;
               cfg_RetryCount := 3;
               cfg_RetryDelay := 1 * Second;
               cfg_Timeout := 10 * Second |};
     queue := {| chan_cap := 20; chan_buf := [] |};
     buffer := [];
     lastFlush := 0 |}.

(** A named record with an error and four fields: a=2 collides with a
    static label, level=x with the level label, obj is not primitive. *)
Definition recordA : golog_Log level Z unit :=
  record0 LWarn "disk almost full" "svc" true
    (Some {[ "a" := VString "2"; "level" := VString "x";
             "obj" := VOther tt; "ok" := VBool true ]})
    (Some "boom").

(** An unnamed record with an error and an empty message. *)
Definition recordErr : golog_Log level Z unit :=
  record0 LError "" "" false None (Some "boom").

(** A record below the minimum severity of [adapterA]. *)
Definition recordDebug : golog_Log level Z unit :=
  record0 LDebug "tick" "" false None None.

Definition entry0 (labels : gmap string string) (ts : Z) (line : string) : lokiLogEntry :=
  {| Timestamp := ts; Line := line; Level := "info"; Labels := labels |}.

(** [adapterA] with a queue of capacity 1 that holds one entry. *)
Definition adapterFull : lokiAdapter level :=
  {| cfg := cfg adapterA;
     queue := {| chan_cap := 1; chan_buf := [entry0 ∅ 1 "first"] |};
     buffer := [];
     lastFlush := 0 |}.

(** A snapshot of three entries: the first and the third carry the same
    label set, written in different orders; the second differs from them
    in one value. *)
Definition snapshot : list lokiLogEntry :=
  [ entry0 (<["job" := "api"]> (<["env" := "prod"]> ∅)) 10 "one";
    entry0 (<["job" := "api"]> (<["env" := "test"]> ∅)) 20 "two";
    entry0 (<["env" := "prod"]> (<["job" := "api"]> ∅)) 30 "three" ].

(** [adapterA] with the three entries of [snapshot] in its buffer. *)
Definition adapterBuf : lokiAdapter level :=
  {| cfg := cfg adapterA; queue := queue adapterA; buffer := snapshot; lastFlush := 0 |}.

(** [adapterBuf] with a retry count of -1. *)
Definition adapterNeg : lokiAdapter level :=
  {| cfg := {| cfg_Enable := true;
               cfg_Level := LInfo;
               cfg_Url := cfg_Url (cfg adapterA);
               cfg_Labels := cfg_Labels (cfg adapterA);
               cfg_BatchSize := 2;
               cfg_BatchInterval := 5 * Second;
               cfg_RetryCount := -1;
               cfg_RetryDelay := 1 * Second;
               cfg_Timeout := 10 * Second |};
     queue := queue adapterA; buffer := snapshot; lastFlush := 0 |}.

(** [adapterA] with one entry waiting in the queue. *)
Definition adapterQueued : lokiAdapter level :=
  {| cfg := cfg adapterA;
     queue := {| chan_cap := 20; chan_buf := [entry0 ∅ 1 "first"] |};
     buffer := [];
     lastFlush := 0 |}.

(** An adapter with batch size 1. *)
Definition adapterOne : lokiAdapter level :=
  {| cfg := {| cfg_Enable := true;
               cfg_Level := LInfo;
               cfg_Url := cfg_Url (cfg adapterA);
               cfg_Labels := cfg_Labels (cfg adapterA);
               cfg_BatchSize := 1;
               cfg_BatchInterval := 5 * Second;
               cfg_RetryCount := 3;
               cfg_RetryDelay := 1 * Second;
               cfg_Timeout := 10 * Second |};
     queue := {| chan_cap := 10; chan_buf := [] |};
     buffer := [];
     lastFlush := 0 |}.

(** The fields of [recordA]. *)
Definition fieldsA : gmap string (value Z unit) :=
  {[ "a" := VString "2"; "level" := VString "x";
     "obj" := VOther tt; "ok" := VBool true ]}.

(** A record without error whose two fields are primitive. *)
Definition recordPrim : golog_Log level Z unit :=
  record0 LInfo "started" "" false
    (Some (<["ok" := VBool true]> (<["n" := VInt 7]> ∅))) None.

(** A configuration with a negative batch size. *)
Definition configNegative : LokiConfig level :=
  {| cfg_Enable := true;
     cfg_Level := LInfo;
     cfg_Url := "http://loki:3100/loki/api/v1/push";
     cfg_Labels := ∅;
     cfg_BatchSize := -1;
     cfg_BatchInterval := 5 * Second;
     cfg_RetryCount := 3;
     cfg_RetryDelay := 1 * Second;
     cfg_Timeout := 10 * Second |}.

End Demo.

(** ** encoding/json at the type of the label map

    [json.Marshal] of a [map[string]string], as the package documents it
    and as its encoder is written: the keys in byte order, every string
    between double quotes with the quote, the backslash, the control
    characters and the characters <, > and & escaped, U+2028 and U+2029
    written as escapes, every byte that is not part of a valid UTF-8
    encoding replaced by the escape of U+FFFD, and everything else copied.
    It never returns an error at this type. *)
Module GoJSON.

Definition code (c : Ascii.ascii) : N := Ascii.N_of_ascii c.
Definition byte (n : N) : Ascii.ascii := Ascii.ascii_of_N n.

(** A string of one byte. *)
Definition char (n : N) : string := String (byte n) "".

Definition hex (n : N) : string :=
  if (n <? 10)%N then char (48 + n) else char (87 + n).

(** unicode/utf8: what the first byte of an encoding announces, the length
    of the encoding and the range of its second byte. *)
Inductive lead :=
  | Single
  | Invalid
  | Lead (size : nat) (lo hi : N).

Definition first (b : N) : lead :=
  if (b <? 128)%N then Single
  else if (b <? 194)%N then Invalid
  else if (b <? 224)%N then Lead 2 128 191
  else if (b =? 224)%N then Lead 3 160 191
  else if (b <? 237)%N then Lead 3 128 191
  else if (b =? 237)%N then Lead 3 128 159
  else if (b <? 240)%N then Lead 3 128 191
  else if (b =? 240)%N then Lead 4 144 191
  else if (b <? 244)%N then Lead 4 128 191
  else if (b =? 244)%N then Lead 4 128 143
  else Invalid.

Definition RuneError : N := 65533.

Definition continuation (b : N) : bool := ((128 <=? b) && (b <=? 191))%N.

(** [utf8.DecodeRuneInString]: the rune at the start of [s] and the number
    of bytes it takes; [(RuneError, 1)] for a byte that starts no valid
    encoding. *)
Definition DecodeRune (s : string) : N * nat :=
  match s with
  | "" => (RuneError, 0%nat)
  | String c0 rest =>
      let p0 := code c0 in
      match first p0 with
      | Single => (p0, 1%nat)
      | Invalid => (RuneError, 1%nat)
      | Lead size lo hi =>
          match rest with
          | "" => (RuneError, 1%nat)
          | String c1 rest1 =>
              let b1 := code c1 in
              if ((b1 <? lo) || (hi <? b1))%N then (RuneError, 1%nat)
              else if (size =? 2)%nat then
                (N.lor (N.shiftl (N.land p0 31) 6) (N.land b1 63), 2%nat)
              else
                match rest1 with
                | "" => (RuneError, 1%nat)
                | String c2 rest2 =>
                    let b2 := code c2 in
                    if negb (continuation b2) then (RuneError, 1%nat)
                    else if (size =? 3)%nat then
                      (N.lor (N.shiftl (N.land p0 15) 12)
                         (N.lor (N.shiftl (N.land b1 63) 6) (N.land b2 63)), 3%nat)
                    else
                      match rest2 with
                      | "" => (RuneError, 1%nat)
                      | String c3 _ =>
                          let b3 := code c3 in
                          if negb (continuation b3) then (RuneError, 1%nat)
                          else
                            (N.lor (N.shiftl (N.land p0 7) 18)
                               (N.lor (N.shiftl (N.land b1 63) 12)
                                  (N.lor (N.shiftl (N.land b2 63) 6) (N.land b3 63))),
                             4%nat)
                      end
                end
          end
      end
  end.

(** The bytes below 128 that are copied as they are. *)
Definition htmlSafe (b : N) : bool :=
  ((32 <=? b) && negb (b =? 34) && negb (b =? 92)
   && negb (b =? 60) && negb (b =? 62) && negb (b =? 38))%N.

(** The escape of a byte below 128 that is not copied. *)
Definition escape (b : N) : string :=
  if ((b =? 92) || (b =? 34))%N then "\" +:+ char b
  else if (b =? 8)%N then "\b"
  else if (b =? 12)%N then "\f"
  else if (b =? 10)%N then "\n"
  else if (b =? 13)%N then "\r"
  else if (b =? 9)%N then "\t"
  else "\u00" +:+ hex (N.shiftr b 4) +:+ hex (N.land b 15).

(** The loop of the encoder over the bytes of a string. [skip] counts the
    remaining bytes of a rune already decoded, which are copied ([copy]) or
    passed over. *)
Fixpoint appendString (skip : nat) (copy : bool) (s : string) : string :=
  match s with
  | "" => ""
  | String c rest =>
      match skip with
      | S n =>
          if copy then String c (appendString n copy rest)
          else appendString n copy rest
      | O =>
          let b := code c in
          if (b <? 128)%N then
            if htmlSafe b then String c (appendString 0 true rest)
            else escape b +:+ appendString 0 true rest
          else
            let '(r, size) := DecodeRune (String c rest) in
            if (r =? RuneError)%N && (size =? 1)%nat then
              "\u" +:+ "fffd" +:+ appendString 0 true rest
            else if ((r =? 8232) || (r =? 8233))%N then
              "\u202" +:+ hex (N.land r 15) +:+ appendString (size - 1) false rest
            else String c (appendString (size - 1) true rest)
      end
  end.

Definition encodeString (s : string) : string :=
  Demo.dq +:+ appendString 0 true s +:+ Demo.dq.

(** The keys of a map in byte order. *)
Definition sortedPairs (m : gmap string string) : list (string * string) :=
  merge_sort (λ x y : string * string, String.le x.1 y.1) (map_to_list m).

Definition marshalMap (m : gmap string string) : string :=
  "{" +:+ Demo.join ","
            ((λ kv, encodeString kv.1 +:+ ":" +:+ encodeString kv.2) <$> sortedPairs m)
      +:+ "}".

(** The runtime of [Demo] with the label map serialised as Go does. *)
Definition runtime : GoRuntime Z unit := {|
  sprintf_f := λ f, pretty f +:+ ".000000";
  marshal_fields := λ m, Ok (Demo.render_object Demo.render_value m);
  marshal_labels := λ m, Ok (marshalMap m);
  marshal_payload := λ p, Ok (Demo.render_payload p);
  new_request_error := λ url, if bool_decide (url = "") then Some "empty url" else None
|}.

(** Two entries whose label sets differ in one byte, neither byte being
    part of a valid UTF-8 encoding. *)
Definition entryFF : lokiLogEntry := Demo.entry0 {[ "a" := char 255 ]} 10 "one".
Definition entryFE : lokiLogEntry := Demo.entry0 {[ "a" := char 254 ]} 20 "two".

End GoJSON.

(** * Properties *)

Section Properties.
Context {L F D : Type} `{!GologLevel L} `{!GoRuntime F D}.

Implicit Types (a : lokiAdapter L) (log : golog_Log L F D) (w : world).

(** ** The gate and the queue *)

Lemma Log_accepted a log :
  accepted a log → Log a log = enqueue a (makeEntry a log).
Proof.
  intros [Hen Hlvl]. unfold Log. by rewrite Hen, Hlvl.
Qed.

Lemma Log_rejected a log :
  ¬ accepted a log → Log a log = mret a.
Proof.
  intros Hno. unfold Log, accepted in *.
  destruct (cfg_Enable (cfg a)); simpl; [|done].
  destruct (IsEnabled _ _); simpl; [|done].
  by destruct Hno.
Qed.

(** ** C8 *)

(** C8: a record submitted while the adapter is disabled, or whose severity
    the configured minimum level does not enable, leaves [Log] at once: the
    adapter comes back as it was and the world (output, sleeps, exchanges,
    clock) is untouched, so nothing was formatted, printed or enqueued. *)
Theorem Log_filtered_noop a log w :
  cfg_Enable (cfg a) = false ∨ IsEnabled (cfg_Level (cfg a)) (log_Level log) = false →
  Log a log w = (a, w).
Proof.
  intros Hgate. rewrite Log_rejected; [done|].
  intros [Hen Hlvl]. destruct Hgate; congruence.
Qed.

(** ** C10 *)

(** C10: with an empty buffer [flush] returns before the snapshot: no
    payload is built or posted, nothing is printed, and the adapter,
    buffer and last-flush time included, is returned unchanged. *)
Theorem flush_empty_noop a w :
  buffer a = [] →
  flush a w = (a, w) ∧ posts (flush a w).2 = posts w ∧
  buffer (flush a w).1 = [] ∧ lastFlush (flush a w).1 = lastFlush a.
Proof.
  intros Hbuf. assert (flush a w = (a, w)) as ->.
  { unfold flush. by rewrite Hbuf. }
  simpl. by rewrite Hbuf.
Qed.

(** ** The sender *)

(** Reads the sleeps and exchanges off a world built by appending
    events to [w]. *)
Ltac history :=
  unfold sleeps, posts; simpl;
  rewrite ?filter_app, ?length_app; simpl;
  rewrite ?app_nil_r; simpl; try done; try lia.

(** One call of [send] never sleeps and performs at most one exchange. *)
Lemma send_effects a payload w :
  sleeps (send a payload w).2 = sleeps w ∧
  (length (posts (send a payload w).2) ≤ S (length (posts w)))%nat.
Proof.
  unfold send, Printf, emit, Do, mbind, M_bind, mret, M_ret.
  destruct (marshal_payload payload) as [jsonData|err]; [|split; history].
  destruct (new_request_error _) as [err|]; [split; history|].
  destruct (w_backend w _) as [err|code]; [split; history|].
  destruct ((200 <=? code) && (code <? 300)); split; history.
Qed.

(** ** C1 *)

(** C1: with a retry count of at least 0, [sendWithRetry] is one call of
    [send] and nothing else: it returns what that first attempt returns,
    success or failure, and leaves the world as that attempt leaves it, so
    no backoff sleep is executed and no further exchange is made, whatever
    the retry count and the outcome of the attempt. *)
Theorem sendWithRetry_first_attempt_only a payload w :
  0 ≤ cfg_RetryCount (cfg a) →
  sendWithRetry a payload w = send a payload w ∧
  sleeps (sendWithRetry a payload w).2 = sleeps w ∧
  (length (posts (sendWithRetry a payload w).2) ≤ S (length (posts w)))%nat.
Proof.
  intros Hcount.
  assert (sendWithRetry a payload w = send a payload w) as ->.
  { unfold sendWithRetry. rewrite seqZ_cons by lia. simpl.
    unfold sendWithRetry_body. simpl.
    unfold mbind, M_bind, mret, M_ret.
    by destruct (send a payload w). }
  split; [done|]. apply send_effects.
Qed.

(** ** Label derivation *)

(** The loops over Go maps assign once per key, so their result does not
    depend on the iteration order: it is read off key by key. *)
Lemma copyStatic_lookup (static labels : gmap string string) k :
  copyStatic static labels !! k =
  match static !! k with Some v => Some v | None => labels !! k end.
Proof.
  unfold copyStatic, range.
  apply (map_fold_weak_ind (λ r m,
    r !! k = match m !! k with Some v => Some v | None => labels !! k end)).
  - by rewrite lookup_empty.
  - intros i x m r Hi IH. rewrite !lookup_insert.
    destruct (decide (i = k)) as [->|]; [done|]. exact IH.
Qed.

Lemma promoteFields_lookup fields (labels : gmap string string) k :
  promoteFields fields labels !! k =
  match promoted fields k with Some s => Some s | None => labels !! k end.
Proof.
  destruct fields as [fs|]; [|done]. unfold promoteFields, promoted, range. simpl.
  apply (map_fold_weak_ind (λ r m,
    r !! k =
    match m !! k ≫= (λ v, if (convertToString v).2
                          then Some (convertToString v).1 else None) with
    | Some s => Some s
    | None => labels !! k
    end)).
  - by rewrite lookup_empty.
  - intros i x m r Hi IH. rewrite (lookup_insert m).
    destruct (decide (i = k)) as [->|Hne]; simpl.
    + rewrite Hi in IH. simpl in IH.
      destruct (convertToString x) as [strVal [|]]; simpl.
      * by rewrite lookup_insert_eq.
      * exact IH.
    + destruct (convertToString x) as [strVal [|]]; simpl.
      * by rewrite lookup_insert_ne.
      * exact IH.
Qed.

Lemma Format_Level log : log_Level (Format log) = log_Level log.
Proof. unfold Format. by case_bool_decide. Qed.

Lemma Format_Fields log : Fields (log_Data (Format log)) = Fields (log_Data log).
Proof. unfold Format. by case_bool_decide. Qed.

Lemma Format_WithName log : WithName (log_Data (Format log)) = WithName (log_Data log).
Proof. unfold Format. by case_bool_decide. Qed.

Lemma Format_Name log :
  Name (log_Data (Format log)) =
  if bool_decide (Name (log_Data log) ≠ "")
  then "[" +:+ Name (log_Data log) +:+ "]: " else "".
Proof.
  unfold Format. case_bool_decide as Hname; [done|].
  destruct (decide (Name (log_Data log) = "")); [done|by destruct Hname].
Qed.

(** The label set of the entry, key by key: the last step that writes a
    key decides its value. *)
Lemma makeEntry_label a log k :
  Labels (makeEntry a log) !! k =
  if decide (k = "level") then Some (LevelString (log_Level log))
  else if decide (k = "logger_name" ∧ WithName (log_Data log) = true
                  ∧ Name (log_Data log) ≠ "")
  then Some ("[" +:+ Name (log_Data log) +:+ "]: ")
  else match promoted (Fields (log_Data log)) k with
       | Some s => Some s
       | None => cfg_Labels (cfg a) !! k
       end.
Proof.
  unfold makeEntry, entryLabels. simpl.
  rewrite lookup_insert, Format_Level.
  destruct (decide ("level" = k)) as [<-|Hlevel].
  { by rewrite decide_True. }
  rewrite decide_False by done.
  unfold nameLabel. rewrite Format_WithName, Format_Name, Format_Fields.
  case_decide as Hname.
  - destruct Hname as (-> & -> & Hne). simpl.
    rewrite (bool_decide_eq_true_2 (Name (log_Data log) ≠ "")) by done.
    rewrite bool_decide_eq_true_2 by (simpl; discriminate).
    by rewrite lookup_insert_eq.
  - assert (promoteFields (Fields (log_Data log)) (copyStatic (cfg_Labels (cfg a)) ∅) !! k
            = match promoted (Fields (log_Data log)) k with
              | Some s => Some s
              | None => cfg_Labels (cfg a) !! k
              end) as Hrest.
    { rewrite promoteFields_lookup, copyStatic_lookup, lookup_empty.
      by destruct (cfg_Labels (cfg a) !! k). }
    destruct (WithName (log_Data log)) eqn:Hwith; simpl; [|exact Hrest].
    destruct (decide (Name (log_Data log) = "")) as [Hempty|Hne].
    + rewrite (bool_decide_eq_false_2 (Name (log_Data log) ≠ ""))
        by (intros Hfalse; by apply Hfalse).
      rewrite bool_decide_eq_false_2 by (intros Hfalse; by apply Hfalse).
      exact Hrest.
    + rewrite (bool_decide_eq_true_2 (Name (log_Data log) ≠ "")) by done.
      rewrite bool_decide_eq_true_2 by (simpl; discriminate).
      rewrite lookup_insert_ne; [exact Hrest|].
      intros <-. by apply Hname.
Qed.

(** ** C6 *)

(** C6: for every record that passes the gate, [Log] hands the queue the
    entry whose label "level" is the severity of the record as [String]
    renders it, whatever the static labels and the structured fields say
    under that key; the entry's own level field carries the same text. *)
Theorem Log_level_label a log :
  accepted a log →
  Log a log = enqueue a (makeEntry a log) ∧
  Labels (makeEntry a log) !! "level" = Some (LevelString (log_Level log)) ∧
  Level (makeEntry a log) = LevelString (log_Level log).
Proof.
  intros Hgate. split; [by apply Log_accepted|]. split.
  - by rewrite makeEntry_label, decide_True.
  - unfold makeEntry. simpl. by rewrite Format_Level.
Qed.

(** ** C3 *)

(** C3 (amended): for every record that passes the gate, the labels of the
    enqueued entry are derived in the order static labels, primitive
    structured fields, logger_name, level, and on a key collision the later
    step overwrites what an earlier step wrote; in particular a static label
    a=1 together with a structured field a=2 gives the label a the value
    "2". *)
Theorem Log_labels_later_step_wins a log :
  accepted a log →
  Log a log = enqueue a (makeEntry a log) ∧
  (∀ k, Labels (makeEntry a log) !! k =
        if decide (k = "level") then Some (LevelString (log_Level log))
        else if decide (k = "logger_name" ∧ WithName (log_Data log) = true
                        ∧ Name (log_Data log) ≠ "")
        then Some ("[" +:+ Name (log_Data log) +:+ "]: ")
        else match promoted (Fields (log_Data log)) k with
             | Some s => Some s
             | None => cfg_Labels (cfg a) !! k
             end) ∧
  (∀ fs, cfg_Labels (cfg a) !! "a" = Some "1" →
         Fields (log_Data log) = Some fs →
         fs !! "a" = Some (VString "2") →
         Labels (makeEntry a log) !! "a" = Some "2").
Proof.
  intros Hgate. split; [by apply Log_accepted|]. split.
  - intros k. apply makeEntry_label.
  - intros fs _ Hfields Ha. rewrite makeEntry_label.
    rewrite decide_False by done.
    rewrite decide_False by (by intros [? _]).
    unfold promoted. rewrite Hfields. simpl. by rewrite Ha.
Qed.

(** ** C4 *)

(** C4 (amended): for every record with a non-empty logger name, [Format]
    prefixes the message with "[<name>]: " and stores that same prefix in
    the name field of the record [Log] works on; timestamp, severity,
    fields, the with-name flag and the error are left as they were. *)
Theorem Format_prefixes_message_and_name log :
  Name (log_Data log) ≠ "" →
  log_Message (Format log) = ("[" +:+ Name (log_Data log) +:+ "]: ") +:+ log_Message log ∧
  Name (log_Data (Format log)) = "[" +:+ Name (log_Data log) +:+ "]: " ∧
  log_Timestamp (Format log) = log_Timestamp log ∧
  log_Level (Format log) = log_Level log ∧
  Fields (log_Data (Format log)) = Fields (log_Data log) ∧
  WithName (log_Data (Format log)) = WithName (log_Data log) ∧
  Error (log_Data (Format log)) = Error (log_Data log).
Proof.
  intros Hname. unfold Format. by rewrite bool_decide_eq_true_2.
Qed.

(** ** Line construction *)

Lemma string_app_cons c (s1 s2 : string) : String c s1 +:+ s2 = String c (s1 +:+ s2).
Proof. reflexivity. Qed.

Lemma string_app_assoc (s1 s2 s3 : string) : (s1 +:+ s2) +:+ s3 = s1 +:+ s2 +:+ s3.
Proof.
  induction s1 as [|c s1 IH]; [reflexivity|].
  rewrite !string_app_cons. by f_equal.
Qed.

(** [buf.Len() > 0] says that the buffer is not the empty string. *)
Lemma Len_positive (s : string) :
  (0 <? Z.of_nat (String.length s)) = bool_decide (s ≠ "").
Proof. by destruct s. Qed.

(** What lines 64-71 append to a buffer. *)
Lemma withError_Some log buf err :
  Error (log_Data log) = Some err →
  withError log buf =
  if decide (buf = "") then "Error: " +:+ err else buf +:+ " - Error: " +:+ err.
Proof.
  intros Herr. unfold withError. rewrite Herr, Len_positive.
  destruct (decide (buf = "")) as [->|Hne]; [done|].
  rewrite bool_decide_eq_true_2 by done.
  cbv zeta. by rewrite string_app_assoc.
Qed.

Lemma withError_not_empty log buf err :
  Error (log_Data log) = Some err → withError log buf ≠ "".
Proof.
  intros Herr. rewrite (withError_Some _ _ err) by done.
  destruct (decide (buf = "")); [done|].
  destruct buf; [done|simpl; discriminate].
Qed.

(** What lines 73-90 append to a non-empty buffer: nothing, or " | " and
    the JSON text of the fields that did not become labels. *)
Lemma withFields_suffix log labels buf :
  buf ≠ "" →
  withFields log labels buf = buf ∨
  ∃ jsonData, withFields log labels buf = buf +:+ " | " +:+ jsonData.
Proof.
  intros Hbuf. unfold withFields.
  destruct (Fields (log_Data log)) as [fs|]; [|by left].
  destruct (0 <? Z.of_nat (size _)); [|by left].
  destruct (marshal_fields _) as [jsonData|err]; [|by left].
  right. exists jsonData.
  rewrite Len_positive, bool_decide_eq_true_2 by done.
  cbv zeta. by rewrite string_app_assoc.
Qed.

Lemma withFields_None log labels buf :
  Fields (log_Data log) = None → withFields log labels buf = buf.
Proof. intros Hnone. unfold withFields. by rewrite Hnone. Qed.

Lemma jsonFieldsOf_lookup (fs : gmap string (value F D)) (labels : gmap string string) k :
  jsonFieldsOf fs labels !! k =
  match labels !! k with Some _ => None | None => fs !! k end.
Proof.
  unfold jsonFieldsOf, range.
  apply (map_fold_weak_ind (λ r m,
    r !! k = match labels !! k with Some _ => None | None => m !! k end)).
  - rewrite !lookup_empty. by destruct (labels !! k).
  - intros i x m r Hi IH. rewrite (lookup_insert m).
    destruct (decide (i = k)) as [->|Hne].
    + case_bool_decide as Hlab.
      * rewrite IH. by destruct Hlab as [? ->].
      * rewrite lookup_insert_eq. by destruct (labels !! k); [destruct Hlab|].
    + case_bool_decide; [done|]. by rewrite lookup_insert_ne.
Qed.

Lemma Format_Error log : Error (log_Data (Format log)) = Error (log_Data log).
Proof. unfold Format. by case_bool_decide. Qed.

(** The line, with the collected fields named. *)
Lemma Line_unfold a log :
  Line (makeEntry a log) =
  let buf := withError (Format log) (log_Message (Format log)) in
  match Fields (log_Data log) with
  | None => buf
  | Some fs =>
      let jsonFields := jsonFieldsOf fs (Labels (makeEntry a log)) in
      if (0 <? Z.of_nat (size jsonFields)) then
        match marshal_fields jsonFields with
        | Ok jsonData =>
            (if (0 <? Z.of_nat (String.length buf)) then buf +:+ " | " else buf)
            +:+ jsonData
        | Err _ => buf
        end
      else buf
  end.
Proof.
  unfold makeEntry at 1. simpl. unfold withFields. rewrite Format_Fields.
  by destruct (Fields (log_Data log)).
Qed.

(** ** C5 *)

(** C5 (amended): for every record that passes the gate and carries an
    error, the line starts with the (possibly name-prefixed) message
    followed by " - Error: " and the error text when that message is not
    empty, and with "Error: " and the error text alone when it is empty.
    When the record has structured fields whose key is not a label key of
    the entry and the map of those fields serialises, the line goes on with
    " | " and that JSON text; otherwise nothing follows. The map holds
    exactly the fields whose key is not a label key. *)
Theorem Log_line_with_error a log err :
  accepted a log →
  Error (log_Data log) = Some err →
  let msg := log_Message (Format log) in
  let head := if decide (msg = "") then "Error: " +:+ err
              else msg +:+ " - Error: " +:+ err in
  let labels := Labels (makeEntry a log) in
  Log a log = enqueue a (makeEntry a log) ∧
  Line (makeEntry a log) =
    match Fields (log_Data log) with
    | None => head
    | Some fs =>
        if (0 <? Z.of_nat (size (jsonFieldsOf fs labels))) then
          match marshal_fields (jsonFieldsOf fs labels) with
          | Ok jsonData => head +:+ " | " +:+ jsonData
          | Err _ => head
          end
        else head
    end ∧
  (∀ (fs : gmap string (value F D)) k,
     jsonFieldsOf fs labels !! k =
     match labels !! k with Some _ => None | None => fs !! k end).
Proof.
  intros Hgate Herr msg head labels. split; [by apply Log_accepted|].
  split; [|intros fs k; apply jsonFieldsOf_lookup].
  assert (Error (log_Data (Format log)) = Some err) as Herr'
    by (by rewrite Format_Error).
  assert (withError (Format log) msg = head) as Hhead.
  { by rewrite (withError_Some _ _ err). }
  assert (head ≠ "") as Hne.
  { rewrite <-Hhead. by apply (withError_not_empty _ _ err). }
  rewrite Line_unfold. fold msg. cbv zeta. rewrite Hhead. fold labels.
  destruct (Fields (log_Data log)) as [fs|]; [|done].
  destruct (0 <? Z.of_nat (size _)); [|done].
  destruct (marshal_fields _) as [jsonData|?]; [|done].
  rewrite Len_positive, bool_decide_eq_true_2 by done.
  by rewrite string_app_assoc.
Qed.

(** ** The queue *)

Lemma enqueue_cap a entry w :
  chan_cap (queue (enqueue a entry w).1) = chan_cap (queue a).
Proof. unfold enqueue. by destruct (_ <? _). Qed.

Lemma enqueue_full a entry w :
  full (queue a) → enqueue a entry w = (a, (Printf (overflowMessage entry) w).2).
Proof.
  unfold full, enqueue. intros Hfull.
  by rewrite (proj2 (Z.ltb_ge _ _)) by lia.
Qed.

Lemma Log_cap a log w :
  chan_cap (queue (Log a log w).1) = chan_cap (queue a).
Proof.
  unfold Log. destruct (_ || _); [done|]. apply enqueue_cap.
Qed.

Lemma flush_queue a w : queue (flush a w).1 = queue a.
Proof.
  unfold flush. case_bool_decide; [done|].
  unfold mbind, M_bind.
  destruct (buildPayload _ w) as [payload w1].
  destruct (sendWithRetry _ payload w1) as [[|] w2]; done.
Qed.

(** ** C9 *)

(** C9: for a batch size threshold that is positive and whose tenfold is
    an [int], the constructor returns an adapter whose queue is empty and
    has capacity batch size times 10; [Log] and [flush] leave that capacity
    as it is; and when the queue already holds capacity-many entries, [Log]
    of an accepted record returns the adapter unchanged, the entry being
    dropped, after printing the overflow diagnostic, its only effect. *)
Theorem queue_capacity_and_overflow (c : LokiConfig L) w :
  0 < cfg_BatchSize c →
  cfg_BatchSize c * 10 ≤ max_int →
  (∃ a0, (NewLokiAdapter c w).1 = Some a0 ∧ cfg a0 = c ∧
         chan_cap (queue a0) = cfg_BatchSize c * 10 ∧ chan_buf (queue a0) = []) ∧
  (∀ a log w1,
     chan_cap (queue (Log a log w1).1) = chan_cap (queue a) ∧
     chan_cap (queue (flush a w1).1) = chan_cap (queue a)) ∧
  (∀ a log w1,
     accepted a log → 0 < chan_cap (queue a) → full (queue a) →
     Log a log w1 = (a, (Printf (overflowMessage (makeEntry a log)) w1).2) ∧
     posts (Log a log w1).2 = posts w1).
Proof.
  intros Hpos Hfit. split; [|split].
  - unfold NewLokiAdapter, make_chan, make_slice.
    assert (wrap64 (cfg_BatchSize c * 10) = cfg_BatchSize c * 10) as ->.
    { unfold wrap64, max_int in *.
      rewrite Z.mod_small by lia. lia. }
    rewrite (proj2 (Z.ltb_ge _ _)) by lia.
    rewrite (proj2 (Z.ltb_ge _ _)) by lia.
    eexists. simpl. done.
  - intros a log w1. by rewrite Log_cap, flush_queue.
  - intros a log w1 Hgate _ Hfull.
    rewrite Log_accepted, enqueue_full by done. split; [done|]. history.
Qed.

(** ** Grouping into streams *)

Lemma grown_step_same before k entry entries :
  marshal_labels (Labels entry) = Ok k →
  grown (Some {| Stream := Stream (default {| Stream := Labels entry; Values := [] |} before);
                 Values := Values (default {| Stream := Labels entry; Values := [] |} before)
                           ++ [valueOf entry] |}) k entries
  = grown before k (entry :: entries).
Proof.
  intros Hkey. unfold grown, withKey. rewrite filter_cons_True by done.
  destruct before as [s|]; simpl.
  - by rewrite <-(assoc_L (++)).
  - done.
Qed.

Lemma grown_step_other before k entry entries :
  marshal_labels (Labels entry) ≠ Ok k →
  grown before k entries = grown before k (entry :: entries).
Proof.
  intros Hkey. unfold grown, withKey. by rewrite filter_cons_False.
Qed.

Lemma groupEntries_lookup entries (streams : gmap string lokiStream) w k :
  (groupEntries entries streams w).1 !! k = grown (streams !! k) k entries.
Proof.
  revert streams w. induction entries as [|entry rest IH]; intros streams w; simpl.
  - unfold grown, withKey. simpl. destruct (streams !! k) as [[labels values]|]; [|done].
    simpl. by rewrite app_nil_r.
  - destruct (marshal_labels (Labels entry)) as [labelsKey|err] eqn:Hkey.
    + rewrite IH. destruct (decide (labelsKey = k)) as [->|Hne].
      * rewrite lookup_insert_eq, <-grown_step_same by done.
        by destruct (streams !! k).
      * rewrite lookup_insert_ne by done.
        apply grown_step_other. rewrite Hkey. congruence.
    + unfold mbind, M_bind. simpl. rewrite IH.
      apply grown_step_other. by rewrite Hkey.
Qed.

(** The streams appended to the payload are the values of the map. *)
Lemma range_append_streams (streams : gmap string lokiStream) :
  range (λ _ stream acc, acc ++ [stream]) streams [] = reverse ((map_to_list streams).*2).
Proof.
  unfold range. rewrite map_fold_foldr.
  induction (map_to_list streams) as [|[k s] l IH]; simpl; [done|].
  by rewrite IH, reverse_cons.
Qed.

Lemma buildPayload_streams buf w s :
  s ∈ Streams (buildPayload buf w).1 ↔ ∃ k, grown None k buf = Some s.
Proof.
  unfold buildPayload, mbind, M_bind.
  destruct (groupEntries buf ∅ w) as [streams w1] eqn:Hgroup.
  change (s ∈ range (λ _ stream acc, acc ++ [stream]) streams []
          ↔ ∃ k, grown None k buf = Some s).
  rewrite range_append_streams, elem_of_reverse, list_elem_of_fmap.
  assert (∀ k, streams !! k = grown None k buf) as Hlookup.
  { intros k. pose proof (groupEntries_lookup buf ∅ w k) as Hk.
    by rewrite Hgroup, lookup_empty in Hk. }
  split.
  - intros ([k s'] & -> & Hin). apply elem_of_map_to_list in Hin.
    exists k. by rewrite <-Hlookup.
  - intros [k Hk]. exists (k, s). split; [done|].
    apply elem_of_map_to_list. by rewrite Hlookup.
Qed.

Lemma filter_agree {A} (P Q : A → Prop) `{∀ x, Decision (P x)} `{∀ x, Decision (Q x)}
    (l : list A) :
  (∀ x, x ∈ l → P x ↔ Q x) → filter P l = filter Q l.
Proof.
  induction l as [|x l IH]; intros Hagree; [done|].
  rewrite !filter_cons.
  rewrite IH by (intros y Hy; apply Hagree; by right).
  destruct (decide (P x)) as [HP|HP], (decide (Q x)) as [HQ|HQ]; try done.
  - destruct HQ. apply Hagree; [by left|done].
  - destruct HP. apply Hagree; [by left|done].
Qed.

(** A stream that the loop built under key [k] from the empty map. *)
Lemma grown_None_Some k buf s :
  grown None k buf = Some s →
  marshal_labels (Stream s) = Ok k ∧
  Values s = valueOf <$> withKey k buf ∧
  ∃ first, first ∈ buf ∧ Labels first = Stream s.
Proof.
  unfold grown. destruct (withKey k buf) as [|first mine] eqn:Hmine; [done|].
  intros [= <-]. simpl.
  assert (first ∈ withKey k buf) as Hin by (rewrite Hmine; by left).
  apply list_elem_of_filter in Hin as [Hkey Hin]. eauto.
Qed.

Lemma grown_None_is_Some k buf e :
  e ∈ buf → marshal_labels (Labels e) = Ok k → is_Some (grown None k buf).
Proof.
  intros Hin Hkey. unfold grown.
  destruct (withKey k buf) as [|first mine] eqn:Hmine; [|done].
  destruct (filter_nil_not_elem_of _ _ e Hmine Hkey Hin).
Qed.

Lemma buildPayload_NoDup buf w :
  NoDup (Stream <$> Streams (buildPayload buf w).1).
Proof.
  unfold buildPayload, mbind, M_bind.
  destruct (groupEntries buf ∅ w) as [streams w1] eqn:Hgroup.
  change (NoDup (Stream <$> range (λ _ stream acc, acc ++ [stream]) streams [])).
  rewrite range_append_streams, fmap_reverse, reverse_Permutation.
  rewrite <-list_fmap_compose.
  apply NoDup_fmap_2_strong; [|apply NoDup_map_to_list].
  intros [k1 s1] [k2 s2] Hin1%elem_of_map_to_list Hin2%elem_of_map_to_list. simpl.
  intros Hsame.
  pose proof (groupEntries_lookup buf ∅ w k1) as Hk1.
  pose proof (groupEntries_lookup buf ∅ w k2) as Hk2.
  rewrite Hgroup, lookup_empty in Hk1, Hk2. simpl in Hk1, Hk2.
  rewrite Hin1 in Hk1. rewrite Hin2 in Hk2.
  symmetry in Hk1, Hk2.
  apply grown_None_Some in Hk1 as (Hkey1 & _ & _).
  apply grown_None_Some in Hk2 as (Hkey2 & _ & _).
  rewrite Hsame, Hkey2 in Hkey1. injection Hkey1 as ->.
  rewrite Hin1 in Hin2. by injection Hin2 as ->.
Qed.

(** ** C7 *)

(** C7 (amended): for every flushed buffer, every Stream of the payload has
    a key, the serialisation of its label set, and holds the (timestamp,
    line) pairs of exactly the entries whose label set serialises to that
    key, in their order in the buffer, and at least one; no two Streams
    have the same key or the same label set, and every entry whose labels
    serialise has its Stream. So two entries land in the same Stream
    exactly when [json.Marshal] serialises their label sets alike, as it
    always does for label sets that are equal as maps; and when it tells
    the different label sets of the buffer apart, each Stream holds exactly
    the entries whose label set is the Stream's. *)
Theorem buildPayload_groups_by_serialised_labels buf w :
  let streams := Streams (buildPayload buf w).1 in
  (∀ s, s ∈ streams →
        ∃ k, marshal_labels (Stream s) = Ok k ∧
             Values s = valueOf <$> withKey k buf ∧
             withKey k buf ≠ []) ∧
  (∀ s1 s2, s1 ∈ streams → s2 ∈ streams →
            marshal_labels (Stream s1) = marshal_labels (Stream s2) → s1 = s2) ∧
  NoDup (Stream <$> streams) ∧
  (∀ e k, e ∈ buf → marshal_labels (Labels e) = Ok k →
          ∃ s, s ∈ streams ∧ marshal_labels (Stream s) = Ok k) ∧
  ((∀ e1 e2 k, e1 ∈ buf → e2 ∈ buf →
      marshal_labels (Labels e1) = Ok k → marshal_labels (Labels e2) = Ok k →
      Labels e1 = Labels e2) →
   (∀ s, s ∈ streams →
         Values s = valueOf <$> withLabels (Stream s) buf ∧
         withLabels (Stream s) buf ≠ []) ∧
   (∀ e k, e ∈ buf → marshal_labels (Labels e) = Ok k →
           ∃ s, s ∈ streams ∧ Stream s = Labels e)).
Proof.
  intros streams. split; [|split; [|split; [|split]]].
  - intros s [k Hk]%buildPayload_streams.
    apply grown_None_Some in Hk as (Hkey & Hvalues & first & Hfirst & Hlabels).
    exists k. split; [done|]. split; [done|].
    intros Hnil. apply (filter_nil_not_elem_of _ _ first Hnil); [|done].
    by rewrite Hlabels.
  - intros s1 s2 [k1 Hk1]%buildPayload_streams [k2 Hk2]%buildPayload_streams Hsame.
    pose proof Hk1 as (Hkey1 & _)%grown_None_Some.
    pose proof Hk2 as (Hkey2 & _)%grown_None_Some.
    rewrite Hkey1, Hkey2 in Hsame. injection Hsame as ->.
    rewrite Hk1 in Hk2. by injection Hk2.
  - apply buildPayload_NoDup.
  - intros e k Hin Hkey.
    destruct (grown_None_is_Some k buf e Hin Hkey) as [s Hs].
    exists s. split; [apply buildPayload_streams; eauto|].
    by apply grown_None_Some in Hs as (Hkey' & _).
  - intros Hinj. split.
    + intros s [k Hk]%buildPayload_streams.
      apply grown_None_Some in Hk as (Hkey & Hvalues & first & Hfirst & Hlabels).
      assert (withLabels (Stream s) buf = withKey k buf) as ->.
      { apply filter_agree. intros e He. split.
        - intros ->. done.
        - intros Hk. rewrite <-Hlabels.
          apply (Hinj e first k); [done|done|done|]. by rewrite Hlabels. }
      split; [done|].
      intros Hnil. apply (filter_nil_not_elem_of _ _ first Hnil); [|done].
      by rewrite Hlabels.
    + intros e k Hin Hkey.
      destruct (grown_None_is_Some k buf e Hin Hkey) as [s Hs].
      exists s. split; [apply buildPayload_streams; eauto|].
      apply grown_None_Some in Hs as (Hkey' & _ & first & Hfirst & Hlabels).
      rewrite <-Hlabels. apply (Hinj first e k); [done|done| |done].
      by rewrite Hlabels.
Qed.

End Properties.

(** ** C2 *)

(** C2 (the code at a failing input): retry count 3, retry delay one second,
    a backend that answers 500 to the first exchange and 204 to every later
    one. [sendWithRetry] reports failure after a single exchange and without
    sleeping, although the second attempt would have succeeded. *)
Theorem sendWithRetry_gives_up_after_first_failure :
  let run := sendWithRetry Demo.adapter0 {| Streams := [] |}
               (Demo.world0 (Demo.failing_first 1)) in
  cfg_RetryCount (cfg Demo.adapter0) = 3 ∧
  Demo.failing_first 1 0%nat = Status 500 ∧
  Demo.failing_first 1 1%nat = Status 204 ∧
  run.1 = false ∧
  length (posts run.2) = 1%nat ∧
  sleeps run.2 = [].
Proof. vm_compute. done. Qed.

(** * The model at concrete inputs *)

Section Runs.
Import Demo.

Lemma sendWithRetry_first_attempt_only_witness :
  sendWithRetry adapter0 {| Streams := [] |} w0 = send adapter0 {| Streams := [] |} w0 ∧
  sleeps (sendWithRetry adapter0 {| Streams := [] |} w0).2 = sleeps w0 ∧
  (length (posts (sendWithRetry adapter0 {| Streams := [] |} w0).2)
   ≤ S (length (posts w0)))%nat.
Proof.
  apply (sendWithRetry_first_attempt_only adapter0 {| Streams := [] |} w0).
  vm_compute. discriminate.
Defined.

Lemma Log_filtered_noop_witness : Log adapterA recordDebug w0 = (adapterA, w0).
Proof.
  apply (Log_filtered_noop adapterA recordDebug w0).
  right. reflexivity.
Defined.

Lemma flush_empty_noop_witness :
  flush adapterA w0 = (adapterA, w0) ∧ posts (flush adapterA w0).2 = posts w0 ∧
  buffer (flush adapterA w0).1 = [] ∧ lastFlush (flush adapterA w0).1 = lastFlush adapterA.
Proof.
  apply (flush_empty_noop adapterA w0). reflexivity.
Defined.

Lemma accepted_recordA : accepted adapterA recordA.
Proof. split; reflexivity. Defined.

Lemma accepted_recordErr : accepted adapterA recordErr.
Proof. split; reflexivity. Defined.

Lemma Log_level_label_witness :
  Log adapterA recordA = enqueue adapterA (makeEntry adapterA recordA) ∧
  Labels (makeEntry adapterA recordA) !! "level" = Some "warn" ∧
  Level (makeEntry adapterA recordA) = "warn".
Proof.
  apply (Log_level_label adapterA recordA accepted_recordA).
Defined.

Lemma Log_labels_later_step_wins_witness :
  Labels (makeEntry adapterA recordA) !! "a" = Some "2".
Proof.
  destruct (Log_labels_later_step_wins adapterA recordA accepted_recordA)
    as (_ & _ & Hcollision).
  apply (Hcollision {[ "a" := VString "2"; "level" := VString "x";
                       "obj" := VOther tt; "ok" := VBool true ]});
    reflexivity.
Defined.

(** C3, as stated, at [adapterA] and [recordA]: the static label a=1 does
    not survive the structured field a=2. *)
Lemma static_label_overwritten_by_field :
  cfg_Labels (cfg adapterA) !! "a" = Some "1" ∧
  promoted (Fields (log_Data recordA)) "a" = Some "2" ∧
  ∃ entry, chan_buf (queue (Log adapterA recordA w0).1) = [entry] ∧
           Labels entry !! "a" = Some "2" ∧
           Labels entry !! "a" ≠ Some "1".
Proof.
  split; [reflexivity|]. split; [reflexivity|].
  exists (makeEntry adapterA recordA).
  split; [reflexivity|]. split; [reflexivity|].
  vm_compute. discriminate.
Qed.

Lemma Format_prefixes_message_and_name_witness :
  log_Message (Format recordA) = "[svc]: disk almost full" ∧
  Name (log_Data (Format recordA)) = "[svc]: " ∧
  log_Timestamp (Format recordA) = log_Timestamp recordA ∧
  log_Level (Format recordA) = LWarn ∧
  Fields (log_Data (Format recordA)) = Fields (log_Data recordA) ∧
  WithName (log_Data (Format recordA)) = true ∧
  Error (log_Data (Format recordA)) = Some "boom".
Proof.
  apply (Format_prefixes_message_and_name recordA). discriminate.
Defined.

(** C4, as stated, at [recordA]: the name field does not keep the
    original name, and the logger_name label is not the original name. *)
Lemma Format_overwrites_name_field :
  Name (log_Data recordA) = "svc" ∧
  Name (log_Data (Format recordA)) ≠ Name (log_Data recordA) ∧
  ∃ entry, chan_buf (queue (Log adapterA recordA w0).1) = [entry] ∧
           Labels entry !! "logger_name" = Some "[svc]: " ∧
           Labels entry !! "logger_name" ≠ Some (Name (log_Data recordA)).
Proof.
  split; [reflexivity|]. split; [vm_compute; discriminate|].
  exists (makeEntry adapterA recordA).
  split; [reflexivity|]. split; [reflexivity|].
  vm_compute. discriminate.
Qed.

Lemma Log_line_with_error_witness :
  Line (makeEntry adapterA recordA) =
    "[svc]: disk almost full - Error: boom" +:+ " | "
    +:+ render_object render_value {[ "obj" := VOther tt ]} ∧
  Line (makeEntry adapterA recordErr) = "Error: boom".
Proof.
  destruct (Log_line_with_error adapterA recordA "boom" accepted_recordA eq_refl)
    as (_ & HlineA & _).
  destruct (Log_line_with_error adapterA recordErr "boom" accepted_recordErr eq_refl)
    as (_ & HlineErr & _).
  split.
  - rewrite HlineA. vm_compute. reflexivity.
  - rewrite HlineErr. reflexivity.
Defined.

(** C5, as stated, at [recordErr]: with an empty message the line is the
    error part without the leading " - ". *)
Lemma error_after_empty_message_has_no_dash :
  Error (log_Data recordErr) = Some "boom" ∧
  log_Message (Format recordErr) = "" ∧
  ∃ entry, chan_buf (queue (Log adapterA recordErr w0).1) = [entry] ∧
           Line entry = "Error: boom" ∧
           Line entry ≠ log_Message (Format recordErr) +:+ " - Error: " +:+ "boom".
Proof.
  split; [reflexivity|]. split; [reflexivity|].
  exists (makeEntry adapterA recordErr).
  split; [reflexivity|]. split; [reflexivity|].
  vm_compute. discriminate.
Qed.

Lemma queue_capacity_and_overflow_witness :
  (∃ a0, (NewLokiAdapter (cfg adapterA) w0).1 = Some a0 ∧
         chan_cap (queue a0) = 20) ∧
  Log adapterFull recordA w0 =
    (adapterFull, (Printf (overflowMessage (makeEntry adapterFull recordA)) w0).2).
Proof.
  destruct (queue_capacity_and_overflow (cfg adapterA) w0) as (Hnew & _ & Hfull).
  - reflexivity.
  - vm_compute. discriminate.
  - split.
    + destruct Hnew as (a0 & Ha0 & _ & Hcap & _). exists a0. split; [exact Ha0|exact Hcap].
    + apply (Hfull adapterFull recordA w0).
      * split; reflexivity.
      * reflexivity.
      * vm_compute. discriminate.
Defined.

(** The Demo rendering tells the label sets of [snapshot] apart. *)
Lemma snapshot_keys_distinct e1 e2 k :
  e1 ∈ snapshot → e2 ∈ snapshot →
  marshal_labels (Labels e1) = Ok k → marshal_labels (Labels e2) = Ok k →
  Labels e1 = Labels e2.
Proof.
  unfold snapshot. intros H1 H2 K1 K2.
  repeat (apply elem_of_cons in H1 as [->|H1]);
    [| | |by apply elem_of_nil in H1];
    (repeat (apply elem_of_cons in H2 as [->|H2]);
     [| | |by apply elem_of_nil in H2]);
    first [ by vm_compute | vm_compute in K1; vm_compute in K2; congruence ].
Defined.

Lemma buildPayload_groups_by_serialised_labels_witness :
  let streams := Streams (buildPayload snapshot w0).1 in
  (∀ s, s ∈ streams →
        Values s = valueOf <$> withLabels (Stream s) snapshot ∧
        withLabels (Stream s) snapshot ≠ []) ∧
  (∀ e k, e ∈ snapshot → marshal_labels (Labels e) = Ok k →
          ∃ s, s ∈ streams ∧ Stream s = Labels e).
Proof.
  destruct (buildPayload_groups_by_serialised_labels snapshot w0)
    as (_ & _ & _ & _ & Hclasses).
  apply Hclasses. exact snapshot_keys_distinct.
Defined.

(** C7, as stated, with the label map serialised as Go does: the label
    sets of [entryFF] and [entryFE] differ, and both entries land in the one
    Stream of the payload. *)
Lemma different_label_sets_share_a_stream :
  Labels GoJSON.entryFF ≠ Labels GoJSON.entryFE ∧
  marshal_labels (GoRuntime := GoJSON.runtime) (Labels GoJSON.entryFF) =
    marshal_labels (GoRuntime := GoJSON.runtime) (Labels GoJSON.entryFE) ∧
  ∃ s, Streams (buildPayload (GoRuntime0 := GoJSON.runtime)
                  [GoJSON.entryFF; GoJSON.entryFE] w0).1 = [s] ∧
       Stream s = Labels GoJSON.entryFF ∧
       Values s = [valueOf GoJSON.entryFF; valueOf GoJSON.entryFE].
Proof.
  split.
  { intros Hsame.
    assert (Labels GoJSON.entryFF !! "a" = Labels GoJSON.entryFE !! "a") as Ha
      by (by rewrite Hsame).
    vm_compute in Ha. discriminate. }
  split; [vm_compute; reflexivity|].
  eexists. split; [vm_compute; reflexivity|]. split; vm_compute; reflexivity.
Qed.

(** The payload of [snapshot]: two streams, the first and third entry
    together and in that order, the second alone. *)
Example snapshot_payload :
  (λ s, (map_to_list (Stream s), Values s)) <$> Streams (buildPayload snapshot w0).1 =
  [ ([("env", "prod"); ("job", "api")], [("10", "one"); ("30", "three")]);
    ([("env", "test"); ("job", "api")], [("20", "two")]) ].
Proof. vm_compute. reflexivity. Qed.

(** The labels of the entry built from [recordA] by [adapterA]. *)
Example recordA_labels :
  map_to_list (Labels (makeEntry adapterA recordA)) =
  [ ("ok", "true"); ("a", "2"); ("job", "api");
    ("logger_name", "[svc]: "); ("level", "warn") ].
Proof. vm_compute. reflexivity. Qed.

(** With a backend that fails once, a flush of two entries drops them:
    one exchange, no sleep, the buffer emptied, the last-flush time kept. *)
Example flush_drops_batch_on_first_failure :
  let a := {| cfg := cfg adapterA; queue := queue adapterA;
              buffer := [entry0 ∅ 1 "x"; entry0 ∅ 2 "y"]; lastFlush := 7 |} in
  let run := flush a (world0 (failing_first 1)) in
  buffer run.1 = [] ∧ lastFlush run.1 = 7 ∧
  length (posts run.2) = 1%nat ∧ sleeps run.2 = [].
Proof. vm_compute. done. Qed.

End Runs.

(** * Further properties of the package *)

Section Coverage.
Context {L F D : Type} `{!GologLevel L} `{!GoRuntime F D}.

Implicit Types (a : lokiAdapter L) (log : golog_Log L F D) (w : world).

Ltac trace_facts :=
  unfold sleeps, posts, prints; simpl;
  rewrite ?filter_app, ?length_app; simpl;
  rewrite ?app_nil_r; simpl; try done; try lia.

(** ** send *)

(** X1: [send] reports success exactly when the payload serialises, the
    request can be built for the configured URL, and the backend answers
    this exchange with a status code from 200 up to 299; a transport error
    or any other status is a failure. *)
Theorem send_succeeds_iff a payload w :
  (send a payload w).1 = true ↔
  ∃ jsonData code,
    marshal_payload payload = Ok jsonData ∧
    new_request_error (cfg_Url (cfg a)) = None ∧
    w_backend w (length (posts w)) = Status code ∧
    200 ≤ code < 300.
Proof.
  unfold send, Printf, emit, Do, mbind, M_bind, mret, M_ret.
  destruct (marshal_payload payload) as [jsonData|err]; simpl.
  2:{ split; [done|]. by intros (? & ? & ? & _). }
  destruct (new_request_error _) as [err|]; simpl.
  { split; [done|]. by intros (? & ? & _ & ? & _). }
  destruct (w_backend w _) as [err|code]; simpl.
  { split; [done|]. by intros (? & ? & _ & _ & ? & _). }
  destruct ((200 <=? code) && (code <? 300)) eqn:Hcode; simpl.
  - split; [|done]. intros _. exists jsonData, code.
    apply andb_true_iff in Hcode as [?%Z.leb_le ?%Z.ltb_lt]. done.
  - split; [done|]. intros (? & code' & _ & _ & [= <-] & Hlo & Hhi).
    apply andb_false_iff in Hcode as [?%Z.leb_gt|?%Z.ltb_ge]; lia.
Qed.

(** X2: [send] performs one exchange, a POST of the serialised payload to
    the configured URL with content type application/json, when the payload
    serialises and the request can be built; otherwise it performs none. *)
Theorem send_posts_payload a payload w :
  posts (send a payload w).2 =
  match marshal_payload payload, new_request_error (cfg_Url (cfg a)) with
  | Ok jsonData, None => posts w ++ [EvPost (requestFor a jsonData)]
  | _, _ => posts w
  end.
Proof.
  unfold send, requestFor, Printf, emit, Do, mbind, M_bind, mret, M_ret.
  destruct (marshal_payload payload) as [jsonData|err]; [|trace_facts].
  destruct (new_request_error _) as [err|]; [trace_facts|].
  destruct (w_backend w _) as [err|code]; [trace_facts|].
  destruct ((200 <=? code) && (code <? 300)); trace_facts.
Qed.

(** X3: a failed [send] prints exactly one diagnostic and a successful one
    prints nothing; in both cases it does not sleep, and the clock moves on
    by the time the exchange takes when one is made and stays where it is
    when none is made. *)
Theorem send_diagnostics a payload w :
  length (prints (send a payload w).2) =
    (length (prints w) + (if (send a payload w).1 then 0 else 1))%nat ∧
  sleeps (send a payload w).2 = sleeps w ∧
  w_now (send a payload w).2 =
    match marshal_payload payload, new_request_error (cfg_Url (cfg a)) with
    | Ok _, None => w_now w + Z.max 0 (w_latency w (length (posts w)))
    | _, _ => w_now w
    end.
Proof.
  unfold send, Printf, emit, Do, mbind, M_bind, mret, M_ret.
  destruct (marshal_payload payload) as [jsonData|err]; [|repeat split; trace_facts].
  destruct (new_request_error _) as [err|]; [repeat split; trace_facts|].
  destruct (w_backend w _) as [err|code]; [repeat split; trace_facts|].
  destruct ((200 <=? code) && (code <? 300)); repeat split; trace_facts.
Qed.

(** ** sendWithRetry *)

(** X4: with a negative retry count the loop of [sendWithRetry] is not
    entered: nothing is sent, the give-up diagnostic is printed, and the
    function nevertheless returns true. *)
Theorem sendWithRetry_negative_count a payload w :
  cfg_RetryCount (cfg a) < 0 →
  sendWithRetry a payload w =
    (true, (Printf ("Failed to send logs to Loki after "
                    +:+ pretty (cfg_RetryCount (cfg a)) +:+ " attempts" +:+ nl) w).2) ∧
  posts (sendWithRetry a payload w).2 = posts w ∧
  sleeps (sendWithRetry a payload w).2 = sleeps w.
Proof.
  intros Hcount.
  assert (sendWithRetry a payload w =
    (true, (Printf ("Failed to send logs to Loki after "
                    +:+ pretty (cfg_RetryCount (cfg a)) +:+ " attempts" +:+ nl) w).2)) as ->.
  { unfold sendWithRetry. by rewrite seqZ_nil by lia. }
  split; [done|]. split; trace_facts.
Qed.

(** ** flush *)

(** Grouping only prints: it leaves the backend, the clock, the exchanges
    and the sleeps of the world alone. *)
Lemma groupEntries_quiet entries (streams : gmap string lokiStream) w :
  w_backend (groupEntries entries streams w).2 = w_backend w ∧
  w_now (groupEntries entries streams w).2 = w_now w ∧
  posts (groupEntries entries streams w).2 = posts w ∧
  sleeps (groupEntries entries streams w).2 = sleeps w.
Proof.
  revert streams w. induction entries as [|entry rest IH]; intros streams w; simpl; [done|].
  destruct (marshal_labels (Labels entry)) as [labelsKey|err]; [apply IH|].
  unfold mbind, M_bind, Printf, emit. simpl.
  destruct (IH streams {| w_backend := w_backend w;
                          w_latency := w_latency w;
                          w_events := w_events w ++ [EvPrint ("Error marshalling labels: "
                                                              +:+ err +:+ nl)];
                          w_now := w_now w |}) as (-> & -> & -> & ->).
  repeat split; trace_facts.
Qed.

Lemma buildPayload_quiet buf w :
  w_backend (buildPayload buf w).2 = w_backend w ∧
  w_now (buildPayload buf w).2 = w_now w ∧
  posts (buildPayload buf w).2 = posts w ∧
  sleeps (buildPayload buf w).2 = sleeps w.
Proof.
  unfold buildPayload, mbind, M_bind.
  pose proof (groupEntries_quiet buf ∅ w) as Hquiet.
  by destruct (groupEntries buf ∅ w) as [streams w1].
Qed.

(** The loop of [sendWithRetry] with a retry count of at least 0. *)
Lemma sendWithRetry_once a payload w :
  0 ≤ cfg_RetryCount (cfg a) → sendWithRetry a payload w = send a payload w.
Proof.
  intros Hcount. unfold sendWithRetry. rewrite seqZ_cons by lia. simpl.
  unfold sendWithRetry_body. simpl.
  unfold mbind, M_bind, mret, M_ret.
  by destruct (send a payload w).
Qed.

(** The loop of [sendWithRetry] with a negative retry count. *)
Lemma sendWithRetry_skipped a payload w :
  cfg_RetryCount (cfg a) < 0 →
  sendWithRetry a payload w =
    (true, (Printf ("Failed to send logs to Loki after "
                    +:+ pretty (cfg_RetryCount (cfg a)) +:+ " attempts" +:+ nl) w).2).
Proof. intros Hcount. unfold sendWithRetry. by rewrite seqZ_nil by lia. Qed.

(** [flush] on a buffer that is not empty, step by step. *)
Lemma flush_steps a w :
  buffer a ≠ [] →
  flush a w =
  let built := buildPayload (buffer a) w in
  let sent := sendWithRetry a built.1 built.2 in
  ({| cfg := cfg a; queue := queue a; buffer := [];
      lastFlush := if sent.1 then w_now sent.2 else lastFlush a |}, sent.2).
Proof.
  intros Hbuf. unfold flush.
  rewrite bool_decide_eq_false_2 by (by intros ?%nil_length_inv).
  unfold mbind, M_bind. simpl.
  destruct (buildPayload (buffer a) w) as [payload w1]. simpl.
  change (sendWithRetry {| cfg := cfg a; queue := queue a; buffer := [];
                           lastFlush := lastFlush a |} payload w1)
    with (sendWithRetry a payload w1).
  by destruct (sendWithRetry a payload w1) as [[|] w2].
Qed.

Lemma flush_result a w :
  buffer (flush a w).1 = [] ∧ cfg (flush a w).1 = cfg a ∧ queue (flush a w).1 = queue a.
Proof.
  destruct (decide (buffer a = [])) as [Hbuf|Hbuf].
  - unfold flush. by rewrite Hbuf.
  - by rewrite flush_steps.
Qed.

(** X5: [flush] always leaves the buffer empty, whether the batch was
    delivered or not (a batch that could not be sent is dropped, not kept for
    a later flush), and never touches the configuration or the queue. *)
Theorem flush_always_empties_buffer a w :
  buffer (flush a w).1 = [] ∧
  cfg (flush a w).1 = cfg a ∧
  queue (flush a w).1 = queue a.
Proof. apply flush_result. Qed.

(** X6: with a retry count of at least 0, [flush] on a non-empty buffer is
    one build of the payload from the snapshot followed by one [send]; the
    last-flush time becomes the time read when that [send] has returned,
    exactly when the [send] succeeded, and is kept otherwise. *)
Theorem flush_stamps_on_success a w :
  0 ≤ cfg_RetryCount (cfg a) →
  buffer a ≠ [] →
  let built := buildPayload (buffer a) w in
  let sent := send a built.1 built.2 in
  flush a w =
  ({| cfg := cfg a; queue := queue a; buffer := [];
      lastFlush := if sent.1 then w_now sent.2 else lastFlush a |}, sent.2).
Proof.
  intros Hcount Hbuf built sent. rewrite flush_steps by done. simpl.
  by rewrite sendWithRetry_once.
Qed.

Lemma flush_request a w jsonData :
  0 ≤ cfg_RetryCount (cfg a) →
  buffer a ≠ [] →
  marshal_payload (buildPayload (buffer a) w).1 = Ok jsonData →
  new_request_error (cfg_Url (cfg a)) = None →
  posts (flush a w).2 = posts w ++ [EvPost (requestFor a jsonData)] ∧
  sleeps (flush a w).2 = sleeps w.
Proof.
  intros Hcount Hbuf Hjson Hurl. rewrite flush_steps by done. simpl.
  rewrite sendWithRetry_once by done.
  destruct (buildPayload_quiet (buffer a) w) as (_ & _ & Hposts & Hsleeps).
  rewrite <-Hposts, <-Hsleeps.
  destruct (buildPayload (buffer a) w) as [payload w1]. simpl in *.
  unfold send, requestFor, Printf, emit, Do, mbind, M_bind, mret, M_ret.
  rewrite Hjson, Hurl.
  destruct (w_backend w1 _) as [err|code]; [split; trace_facts|].
  destruct ((200 <=? code) && (code <? 300)); split; trace_facts.
Qed.

(** X7: with a retry count of at least 0, a payload that serialises and a
    URL a request can be built for, [flush] on a non-empty buffer performs
    exactly one exchange: the POST of the serialised payload of the
    snapshot; it never sleeps. *)
Theorem flush_posts_snapshot a w jsonData :
  0 ≤ cfg_RetryCount (cfg a) →
  buffer a ≠ [] →
  marshal_payload (buildPayload (buffer a) w).1 = Ok jsonData →
  new_request_error (cfg_Url (cfg a)) = None →
  posts (flush a w).2 = posts w ++ [EvPost (requestFor a jsonData)] ∧
  sleeps (flush a w).2 = sleeps w.
Proof. apply flush_request. Qed.

(** X8: with a negative retry count [flush] on a non-empty buffer sends
    nothing, drops the batch and still records the flush as successful: the
    last-flush time becomes the current time. *)
Theorem flush_negative_count_drops_silently a w :
  cfg_RetryCount (cfg a) < 0 →
  buffer a ≠ [] →
  (flush a w).1 = {| cfg := cfg a; queue := queue a; buffer := [];
                     lastFlush := w_now w |} ∧
  posts (flush a w).2 = posts w.
Proof.
  intros Hcount Hbuf. rewrite flush_steps by done. simpl.
  rewrite sendWithRetry_skipped by done.
  destruct (buildPayload_quiet (buffer a) w) as (_ & Hnow & Hposts & _).
  simpl. rewrite Hnow. split; [done|]. rewrite <-Hposts. trace_facts.
Qed.

(** ** Log and the queue *)

Lemma enqueue_room a entry w :
  ¬ full (queue a) →
  enqueue a entry w =
  ({| cfg := cfg a;
      queue := {| chan_cap := chan_cap (queue a);
                  chan_buf := chan_buf (queue a) ++ [entry] |};
      buffer := buffer a;
      lastFlush := lastFlush a |}, w).
Proof.
  unfold full, enqueue. intros Hroom.
  by rewrite (proj2 (Z.ltb_lt _ _)) by lia.
Qed.

Lemma enqueue_dropped a entry w :
  full (queue a) → enqueue a entry w = (a, (Printf (overflowMessage entry) w).2).
Proof.
  unfold full, enqueue. intros Hfull.
  by rewrite (proj2 (Z.ltb_ge _ _)) by lia.
Qed.

(** The entry depends on the adapter through its configuration only. *)
Lemma makeEntry_cfg a a' log : cfg a = cfg a' → makeEntry a log = makeEntry a' log.
Proof. intros Hcfg. unfold makeEntry, entryLabels. by rewrite Hcfg. Qed.

Lemma accepted_cfg a a' log : cfg a = cfg a' → accepted a log → accepted a' log.
Proof. intros Hcfg. unfold accepted. by rewrite Hcfg. Qed.

(** X9: [Log] of an accepted record into a queue with room appends the
    entry at the back of the queue and does nothing else: no output, no
    exchange, and the buffer, the last-flush time and the configuration stay
    as they are. *)
Theorem Log_enqueues_at_back a log w :
  accepted a log →
  ¬ full (queue a) →
  Log a log w =
  ({| cfg := cfg a;
      queue := {| chan_cap := chan_cap (queue a);
                  chan_buf := chan_buf (queue a) ++ [makeEntry a log] |};
      buffer := buffer a;
      lastFlush := lastFlush a |}, w).
Proof.
  intros Hgate Hroom. by rewrite Log_accepted, enqueue_room.
Qed.

(** X10: whatever the record and the state, [Log] never performs an
    exchange, never sleeps, never moves the clock and never changes the
    configuration, the buffer or the last-flush time; the queue keeps its
    entries and gains at most one at the back. *)
Theorem Log_frame a log w :
  cfg (Log a log w).1 = cfg a ∧
  buffer (Log a log w).1 = buffer a ∧
  lastFlush (Log a log w).1 = lastFlush a ∧
  posts (Log a log w).2 = posts w ∧
  sleeps (Log a log w).2 = sleeps w ∧
  w_now (Log a log w).2 = w_now w ∧
  (chan_buf (queue (Log a log w).1) = chan_buf (queue a) ∨
   ∃ entry, chan_buf (queue (Log a log w).1) = chan_buf (queue a) ++ [entry]).
Proof.
  unfold Log. destruct (_ || _).
  { repeat split; try done. by left. }
  destruct (decide (full (queue a))) as [Hfull|Hroom].
  - rewrite enqueue_dropped by done. repeat split; try done; try trace_facts. by left.
  - rewrite enqueue_room by done. repeat split; try done. right. eauto.
Qed.

(** X11: when one producer submits accepted records in a row to an adapter
    whose worker does not run in between, the queue ends up holding the
    earlier entries followed by the new ones, in submission order, up to its
    capacity; every entry beyond the capacity is dropped, and the overflow
    diagnostics name exactly the dropped entries, in order. *)
Theorem submitAll_keeps_prefix_drops_excess (logs : list (golog_Log L F D)) a w :
  Forall (accepted a) logs →
  Z.of_nat (length (chan_buf (queue a))) ≤ chan_cap (queue a) →
  let all := chan_buf (queue a) ++ (makeEntry a <$> logs) in
  let room := Z.to_nat (chan_cap (queue a)) in
  chan_buf (queue (submitAll logs a w).1.1) = take room all ∧
  prints (submitAll logs a w).2 =
    prints w ++ ((λ e, EvPrint (overflowMessage e)) <$> drop room all).
Proof.
  unfold submitAll. revert a w.
  induction logs as [|log logs IH]; intros a w Hall Hlen; simpl.
  { rewrite !app_nil_r, take_ge, drop_ge by lia. by rewrite app_nil_r. }
  apply Forall_cons in Hall as [Hlog Hall].
  unfold mbind, M_bind. rewrite Log_accepted by done.
  destruct (decide (full (queue a))) as [Hfull|Hroom].
  - rewrite enqueue_dropped by done. cbv beta iota.
    destruct (IH a (Printf (overflowMessage (makeEntry a log)) w).2 Hall Hlen)
      as [Hq Hp].
    unfold full in Hfull.
    assert (Z.to_nat (chan_cap (queue a)) = length (chan_buf (queue a))) as Heq by lia.
    rewrite Heq in *.
    rewrite take_app_length in Hq. rewrite drop_app_length in Hp.
    rewrite take_app_length, drop_app_length. split; [exact Hq|].
    etrans; [exact Hp|]. unfold prints. simpl. rewrite filter_app. simpl.
    by rewrite <-(assoc_L (++)).
  - rewrite enqueue_room by done. cbv beta iota. unfold full in Hroom.
    set (a1 := {| cfg := cfg a |}).
    assert (Forall (accepted a1) logs) as Hall1.
    { eapply Forall_impl; [exact Hall|]. intros l. by apply accepted_cfg. }
    destruct (IH a1 w Hall1) as [Hq Hp].
    { simpl. rewrite length_app. simpl. lia. }
    simpl in Hq, Hp.
    assert ((makeEntry a1 <$> logs) = (makeEntry a <$> logs)) as Hsame.
    { apply list_fmap_ext. intros _ l _. by apply makeEntry_cfg. }
    rewrite Hsame, <-(assoc_L (++)) in Hq, Hp. done.
Qed.


(** ** Fields, labels and the line *)

(** X12: where a structured field of an accepted record ends up. The
    trailing JSON of the line is made of exactly the fields whose value is
    not primitive and whose key is not a label of the entry (not a static
    label, not "level", and not "logger_name" when that label is set); a
    primitive field is never in it, and a non-primitive field whose key
    collides with a label is neither a label value nor in the JSON. *)
Theorem unpromoted_fields_go_to_json a log fs :
  Fields (log_Data log) = Some fs →
  let jsonFields := jsonFieldsOf fs (Labels (makeEntry a log)) in
  let buf := withError (Format log) (log_Message (Format log)) in
  Line (makeEntry a log) =
    (if (0 <? Z.of_nat (size jsonFields)) then
       match marshal_fields jsonFields with
       | Ok jsonData =>
           (if (0 <? Z.of_nat (String.length buf)) then buf +:+ " | " else buf)
           +:+ jsonData
       | Err _ => buf
       end
     else buf) ∧
  ∀ k, jsonFields !! k =
       match fs !! k with
       | Some v =>
           if (convertToString v).2 then None
           else if decide (k = "level"
                           ∨ (k = "logger_name" ∧ WithName (log_Data log) = true
                              ∧ Name (log_Data log) ≠ "")
                           ∨ is_Some (cfg_Labels (cfg a) !! k))
           then None else Some v
       | None => None
       end.
Proof.
  intros Hfields jsonFields buf. split.
  { rewrite Line_unfold, Hfields. done. }
  intros k. unfold jsonFields. rewrite jsonFieldsOf_lookup, makeEntry_label.
  unfold promoted. rewrite Hfields. simpl.
  destruct (decide (k = "level")) as [->|Hlevel].
  { destruct (fs !! "level") as [v|]; [|done].
    destruct (convertToString v).2; [done|]. rewrite decide_True; [done|by left]. }
  case_decide as Hname.
  { destruct (fs !! k) as [v|]; [|done].
    destruct (convertToString v).2; [done|]. rewrite decide_True; [done|by right; left]. }
  destruct (fs !! k) as [v|]; simpl.
  - destruct (convertToString v).2; [done|].
    destruct (cfg_Labels (cfg a) !! k) as [s|] eqn:Hstatic.
    + rewrite decide_True; [done|]. right. right. by eexists.
    + rewrite decide_False; [done|]. intros [?|[?|[? ?]]]; done.
  - by destruct (cfg_Labels (cfg a) !! k).
Qed.

(** X13: a record whose structured fields are all primitive (or that has
    none) gets no JSON tail: its line is the (possibly name-prefixed) message
    when there is no error, and the message with the error part when there is
    one. *)
Theorem primitive_fields_leave_no_tail a log :
  (∀ fs k v, Fields (log_Data log) = Some fs → fs !! k = Some v →
             (convertToString v).2 = true) →
  let msg := log_Message (Format log) in
  Line (makeEntry a log) =
  match Error (log_Data log) with
  | None => msg
  | Some err => if decide (msg = "") then "Error: " +:+ err
                else msg +:+ " - Error: " +:+ err
  end.
Proof.
  intros Hprim msg.
  assert (withError (Format log) msg =
          match Error (log_Data log) with
          | None => msg
          | Some err => if decide (msg = "") then "Error: " +:+ err
                        else msg +:+ " - Error: " +:+ err
          end) as <-.
  { destruct (Error (log_Data log)) as [err|] eqn:Herr.
    - apply withError_Some. by rewrite Format_Error.
    - unfold withError. by rewrite Format_Error, Herr. }
  rewrite Line_unfold. fold msg. cbv zeta.
  destruct (Fields (log_Data log)) as [fs|] eqn:Hfields; [|done].
  assert (jsonFieldsOf fs (Labels (makeEntry a log)) = ∅) as ->.
  { apply map_eq. intros k.
    rewrite jsonFieldsOf_lookup, makeEntry_label, lookup_empty.
    unfold promoted. rewrite Hfields. simpl.
    destruct (fs !! k) as [v|] eqn:Hk; simpl.
    - rewrite (Hprim fs k v) by done. by repeat case_decide.
    - repeat case_decide; try done. by destruct (cfg_Labels (cfg a) !! k). }
  by rewrite map_size_empty.
Qed.

(** ** The constructors *)

(** X14: a negative batch size makes [NewLokiAdapter] panic in one of its
    two [make] calls: no adapter is returned. *)
Theorem NewLokiAdapter_negative_batch_size_panics (c : LokiConfig L) w :
  cfg_BatchSize c < 0 →
  NewLokiAdapter c w = (None, w).
Proof.
  intros Hneg. unfold NewLokiAdapter, make_slice.
  rewrite (proj2 (Z.ltb_lt _ _)) by lia.
  by destruct (make_chan _).
Qed.

(** For every URL, [NewDefaultLokiAdapter] returns an adapter with the
    default configuration for that URL, an empty queue of capacity 1000, an
    empty buffer and the current time as last-flush time, and has no effect
    on the world. *)
Lemma NewDefaultLokiAdapter_result (url : string) w :
  NewDefaultLokiAdapter (L:=L) url w =
  (Some {| cfg := defaultLokiConfig url;
           queue := {| chan_cap := 1000; chan_buf := [] |};
           buffer := [];
           lastFlush := w_now w |}, w) ∧
  cfg_BatchSize (defaultLokiConfig (L:=L) url) = 100 ∧
  cfg_Labels (defaultLokiConfig (L:=L) url) = {[ "job" := "app_logs" ]} ∧
  cfg_RetryCount (defaultLokiConfig (L:=L) url) = 3 ∧
  cfg_Enable (defaultLokiConfig (L:=L) url) = true.
Proof. done. Qed.

(** ** The worker *)

(** X15: on a tick the worker flushes exactly when the buffer is not empty
    and at least the batch interval has passed since the last successful
    flush; otherwise the tick changes nothing. (The interval is positive,
    as the ticker requires, and an [int64] duration.) *)
Theorem onTick_flushes_when_due a w :
  0 < cfg_BatchInterval (cfg a) ≤ max_int →
  onTick a w =
  if decide (buffer a ≠ [] ∧ cfg_BatchInterval (cfg a) ≤ w_now w - lastFlush a)
  then flush a w else (a, w).
Proof.
  intros [Hpos Hfit]. unfold onTick, Since, Now, mbind, M_bind, mret, M_ret.
  unfold min_int, max_int in *.
  case_decide as Hdue.
  - destruct Hdue as [Hbuf Hdue].
    rewrite (proj2 (Z.ltb_lt _ _)) by (destruct (buffer a); [done|simpl; lia]).
    by rewrite (proj2 (Z.leb_le _ _)) by lia.
  - destruct (buffer a) as [|entry rest] eqn:Hbuf; [done|].
    rewrite (proj2 (Z.ltb_lt _ _)) by (simpl; lia).
    rewrite (proj2 (Z.leb_gt _ _)); [done|].
    assert (w_now w - lastFlush a < cfg_BatchInterval (cfg a)) by
      (destruct (decide (cfg_BatchInterval (cfg a) ≤ w_now w - lastFlush a));
       [by destruct Hdue|lia]).
    lia.
Qed.

(** X16: taking an entry from the queue removes the oldest entry and puts
    it at the end of the buffer; as long as the buffer stays below the batch
    size this is all that happens, and as soon as it reaches the batch size
    the worker flushes at once, which leaves the buffer empty. *)
Theorem onEntry_moves_oldest_entry a w entry rest :
  chan_buf (queue a) = entry :: rest →
  let a1 := {| cfg := cfg a;
               queue := {| chan_cap := chan_cap (queue a); chan_buf := rest |};
               buffer := buffer a ++ [entry];
               lastFlush := lastFlush a |} in
  queue (onEntry a w).1 = queue a1 ∧
  (Z.of_nat (length (buffer a)) + 1 < cfg_BatchSize (cfg a) →
   onEntry a w = (a1, w)) ∧
  (cfg_BatchSize (cfg a) ≤ Z.of_nat (length (buffer a)) + 1 →
   onEntry a w = flush a1 w ∧ buffer (onEntry a w).1 = []).
Proof.
  intros Hqueue a1. unfold onEntry. rewrite Hqueue. fold a1.
  assert (Z.of_nat (length (buffer a1)) = Z.of_nat (length (buffer a)) + 1) as Hlen.
  { unfold a1. simpl. rewrite length_app. simpl. lia. }
  change (cfg a1) with (cfg a). split; [|split].
  - destruct (_ <=? _); [|done]. apply flush_result.
  - intros Hbelow. by rewrite (proj2 (Z.leb_gt _ _)) by lia.
  - intros Hreached. rewrite (proj2 (Z.leb_le _ _)) by lia.
    split; [done|]. apply flush_result.
Qed.

Lemma onEntry_bounds a w :
  0 < cfg_BatchSize (cfg a) → within_bounds a →
  within_bounds (onEntry a w).1 ∧ same_setup a (onEntry a w).1.
Proof.
  intros Hpos [Hbuf Hq]. unfold onEntry, within_bounds, same_setup.
  destruct (chan_buf (queue a)) as [|entry rest] eqn:Hqueue.
  { simpl. by rewrite Hqueue. }
  set (a1 := {| cfg := cfg a |}).
  simpl in Hq.
  destruct (_ <=? _) eqn:Hcmp.
  - destruct (flush_result a1 w) as (-> & -> & ->). simpl. repeat split; lia.
  - apply Z.leb_gt in Hcmp. simpl in *. repeat split; lia.
Qed.

Lemma onTick_bounds a w :
  0 < cfg_BatchSize (cfg a) → within_bounds a →
  within_bounds (onTick a w).1 ∧ same_setup a (onTick a w).1.
Proof.
  intros Hpos [Hbuf Hq]. unfold onTick, Since, Now, mbind, M_bind, mret, M_ret,
    within_bounds, same_setup.
  destruct (0 <? _); [|done].
  destruct (_ <=? _); [|done].
  destruct (flush_result a w) as (-> & -> & ->). simpl. repeat split; lia.
Qed.

Lemma onQuit_bounds a w :
  0 < cfg_BatchSize (cfg a) → within_bounds a →
  within_bounds (onQuit a w).1 ∧ same_setup a (onQuit a w).1.
Proof.
  intros Hpos [Hbuf Hq]. unfold onQuit, within_bounds, same_setup.
  destruct (0 <? _); [|done].
  destruct (flush_result a w) as (-> & -> & ->). simpl. repeat split; lia.
Qed.

Lemma Log_bounds a log w :
  within_bounds a → within_bounds (Log a log w).1 ∧ same_setup a (Log a log w).1.
Proof.
  intros [Hbuf Hq]. unfold Log, within_bounds, same_setup.
  destruct (_ || _); [done|].
  destruct (decide (full (queue a))) as [Hfull|Hroom].
  - by rewrite enqueue_dropped.
  - rewrite enqueue_room by done. unfold full in Hroom. simpl.
    rewrite length_app. simpl. repeat split; lia.
Qed.

(** X17: in every interleaving of [Log] calls with the worker's cases, for
    a positive batch size, the configuration and the queue capacity never
    change, the buffer stays below the batch size between steps, and the
    queue never holds more entries than its capacity. *)
Theorem run_keeps_bounds (actions : list action) a returned w :
  0 < cfg_BatchSize (cfg a) →
  within_bounds a →
  within_bounds (run actions a returned w).1.1 ∧
  same_setup a (run actions a returned w).1.1.
Proof.
  revert a returned w.
  induction actions as [|act actions IH]; intros a returned w Hpos Hin; simpl; [done|].
  assert (∀ (step : M (lokiAdapter L)) b,
            within_bounds (step w).1 ∧ same_setup a (step w).1 →
            within_bounds ((a ← step; run actions a b) w).1.1 ∧
            same_setup a ((a ← step; run actions a b) w).1.1) as Hstep.
  { intros step b [Hin1 [Hcfg Hcap]]. unfold mbind, M_bind.
    destruct (step w) as [a1 w1]. simpl in *.
    destruct (IH a1 b w1) as [Hin2 [Hcfg2 Hcap2]]; [by rewrite Hcfg|done|].
    split; [done|]. split; congruence. }
  destruct act as [log|r].
  - apply Hstep. by apply Log_bounds.
  - destruct returned; [by apply IH|].
    destruct r; apply Hstep.
    + by apply onEntry_bounds.
    + by apply onTick_bounds.
    + by apply onQuit_bounds.
Qed.

(** X18: when the worker takes the quit case it returns with an empty
    buffer, whatever the schedule holds after that choice, and it leaves the
    queue as it found it: entries still waiting in the queue are not
    fetched. *)
Theorem quit_ends_worker (pre post : list ready) a w :
  QuitReady ∉ pre →
  let before := batchProcessor_loop pre a w in
  let after := batchProcessor_loop (pre ++ QuitReady :: post) a w in
  after.1.2 = true ∧
  buffer after.1.1 = [] ∧
  queue after.1.1 = queue before.1.1.
Proof.
  revert a w. induction pre as [|r pre IH]; intros a w Hpre; simpl.
  - unfold mbind, M_bind, onQuit.
    destruct (0 <? _) eqn:Hlen.
    + destruct (flush_result a w) as (Hbuf & _ & Hq).
      by destruct (flush a w) as [a1 w1].
    + simpl. split; [done|]. split; [|done].
      destruct (buffer a); [done|]. simpl in Hlen. by apply Z.ltb_ge in Hlen; lia.
  - apply not_elem_of_cons in Hpre as [Hr Hpre].
    unfold mbind, M_bind.
    destruct r; [| |done].
    + destruct (onEntry a w) as [a1 w1]. by apply IH.
    + destruct (onTick a w) as [a1 w1]. by apply IH.
Qed.

(** ** Grouping keeps every entry once *)

Lemma streamsSize_insert_fresh (streams : gmap string lokiStream) k s :
  streams !! k = None →
  streamsSize (<[k := s]> streams) = (length (Values s) + streamsSize streams)%nat.
Proof.
  intros Hfresh. unfold streamsSize. by rewrite map_to_list_insert.
Qed.

Lemma streamsSize_insert_existing (streams : gmap string lokiStream) k s old :
  streams !! k = Some old →
  (streamsSize (<[k := s]> streams) + length (Values old) =
   length (Values s) + streamsSize streams)%nat.
Proof.
  intros Hold.
  pose proof (streamsSize_insert_fresh (delete k streams) k s
                (lookup_delete_eq streams k)) as Hnew.
  pose proof (streamsSize_insert_fresh (delete k streams) k old
                (lookup_delete_eq streams k)) as Hback.
  rewrite insert_delete_eq in Hnew.
  rewrite insert_delete_id in Hback by done. lia.
Qed.

Lemma groupEntries_size entries (streams : gmap string lokiStream) w :
  streamsSize (groupEntries entries streams w).1 =
  (streamsSize streams + length (serialisable entries))%nat.
Proof.
  revert streams w. unfold serialisable.
  induction entries as [|entry rest IH]; intros streams w; simpl; [lia|].
  rewrite filter_cons.
  destruct (marshal_labels (Labels entry)) as [labelsKey|err]; simpl.
  - rewrite IH. destruct (streams !! labelsKey) as [old|] eqn:Hold.
    + pose proof (streamsSize_insert_existing streams labelsKey
        {| Stream := Stream old; Values := Values old ++ [valueOf entry] |} old Hold)
        as Hsize.
      simpl in Hsize. rewrite length_app in Hsize. simpl in *.
      unfold valueOf in *. lia.
    + rewrite streamsSize_insert_fresh by done. simpl. lia.
  - unfold mbind, M_bind. simpl. by rewrite IH.
Qed.

(** X19: grouping neither loses nor duplicates entries: the streams of the
    payload together hold exactly as many (timestamp, line) pairs as the
    snapshot has entries whose labels serialise; with labels that always
    serialise, as many as the snapshot has entries. *)
Theorem buildPayload_keeps_every_entry buf w :
  payloadSize (buildPayload buf w).1 = length (serialisable buf) ∧
  ((∀ e, e ∈ buf → is_Ok (marshal_labels (Labels e)) = true) →
   payloadSize (buildPayload buf w).1 = length buf).
Proof.
  assert (payloadSize (buildPayload buf w).1 = length (serialisable buf)) as Hsize.
  { unfold buildPayload, mbind, M_bind.
    pose proof (groupEntries_size buf ∅ w) as Hgroup.
    destruct (groupEntries buf ∅ w) as [streams w1]. simpl in Hgroup.
    change (payloadSize {| Streams := range (λ _ stream acc, acc ++ [stream]) streams [] |}
            = length (serialisable buf)).
    unfold payloadSize. simpl.
    rewrite range_append_streams, sum_list_with_reverse.
    unfold streamsSize in Hgroup. rewrite map_to_list_empty in Hgroup. simpl in Hgroup.
    rewrite <-Hgroup. clear Hgroup.
    induction (map_to_list streams) as [|[k s] l IHl]; simpl; [done|]. by f_equal. }
  split; [done|]. intros Hall. rewrite Hsize. unfold serialisable.
  f_equal. clear Hsize. induction buf as [|e buf IH]; [done|].
  rewrite filter_cons_True by (apply Is_true_true, Hall; by left).
  f_equal. apply IH. intros e' He'. apply Hall. by right.
Qed.

(** ** From a call of Log to the exchange *)

(** X20: the size trigger end to end. When an accepted record is logged
    into an empty queue with room and the worker then takes it, and the
    entry brings the buffer to the batch size, the whole batch (the buffer
    followed by the new entry) is posted in one exchange and both the
    buffer and the queue are empty afterwards. *)
Theorem filled_batch_is_posted a log w jsonData :
  accepted a log →
  chan_buf (queue a) = [] →
  0 < chan_cap (queue a) →
  cfg_BatchSize (cfg a) ≤ Z.of_nat (length (buffer a)) + 1 →
  0 ≤ cfg_RetryCount (cfg a) →
  marshal_payload (buildPayload (buffer a ++ [makeEntry a log]) w).1 = Ok jsonData →
  new_request_error (cfg_Url (cfg a)) = None →
  let r := run [Submit log; Select EntryReady] a false w in
  posts r.2 = posts w ++ [EvPost (requestFor a jsonData)] ∧
  buffer r.1.1 = [] ∧
  chan_buf (queue r.1.1) = [].
Proof.
  intros Hgate Hempty Hcap Hsize Hcount Hjson Hurl. simpl.
  unfold mbind, M_bind.
  rewrite Log_accepted, enqueue_room by (done || (unfold full; rewrite Hempty; simpl; lia)).
  rewrite Hempty. unfold onEntry. simpl.
  set (a1 := {| cfg := cfg a |}).
  rewrite (proj2 (Z.leb_le _ _)) by (rewrite length_app; simpl; lia).
  destruct (flush_result a1 w) as (Hbuf & _ & Hq).
  destruct (flush_request a1 w jsonData) as [Hposts _]; [done| |done|done|].
  { simpl. by destruct (buffer a). }
  destruct (flush a1 w) as [a2 w2]. simpl in *.
  split; [done|]. split; [done|]. by rewrite Hq.
Qed.

(** X21: an adapter that [NewLokiAdapter] returns for a positive batch size
    starts within bounds (empty buffer, empty queue of non-negative
    capacity) with the given configuration and the current time as
    last-flush time; constructing it has no effect on the world. *)
Theorem NewLokiAdapter_starts_within_bounds (c : LokiConfig L) a w w' :
  0 < cfg_BatchSize c →
  NewLokiAdapter c w = (Some a, w') →
  w' = w ∧ cfg a = c ∧ buffer a = [] ∧ chan_buf (queue a) = [] ∧
  lastFlush a = w_now w ∧ within_bounds a.
Proof.
  intros Hpos. unfold NewLokiAdapter, make_chan, make_slice, within_bounds.
  destruct (_ <? 0) eqn:Hcap; [by destruct (_ <? 0)|].
  destruct (cfg_BatchSize c <? 0); [done|].
  intros [= <- <-]. simpl. apply Z.ltb_ge in Hcap. repeat split; try done; lia.
Qed.

End Coverage.

(** * The further properties at concrete inputs *)

Section CoverageRuns.
Import Demo.

Lemma sendWithRetry_negative_count_witness :
  (sendWithRetry adapterNeg {| Streams := [] |} w0).1 = true ∧
  posts (sendWithRetry adapterNeg {| Streams := [] |} w0).2 = posts w0.
Proof.
  destruct (sendWithRetry_negative_count adapterNeg {| Streams := [] |} w0)
    as (Hrun & Hposts & _).
  - vm_compute. reflexivity.
  - split; [by rewrite Hrun|exact Hposts].
Defined.

Lemma flush_stamps_on_success_witness :
  lastFlush (flush adapterBuf w0).1 = w_now w0 + 3000000 ∧
  lastFlush (flush adapterBuf (world0 (failing_first 1))).1 = 0.
Proof.
  split.
  - rewrite (flush_stamps_on_success adapterBuf w0); [reflexivity| |].
    + vm_compute. discriminate.
    + discriminate.
  - rewrite (flush_stamps_on_success adapterBuf (world0 (failing_first 1)));
      [reflexivity| |].
    + vm_compute. discriminate.
    + discriminate.
Defined.

Lemma flush_posts_snapshot_witness :
  posts (flush adapterBuf w0).2 =
    posts w0 ++ [EvPost (requestFor adapterBuf
                           (render_payload (buildPayload snapshot w0).1))] ∧
  sleeps (flush adapterBuf w0).2 = sleeps w0.
Proof.
  apply (flush_posts_snapshot adapterBuf w0).
  - vm_compute. discriminate.
  - discriminate.
  - reflexivity.
  - reflexivity.
Defined.

Lemma flush_negative_count_drops_silently_witness :
  (flush adapterNeg w0).1 =
    {| cfg := cfg adapterNeg; queue := queue adapterNeg; buffer := [];
       lastFlush := w_now w0 |} ∧
  posts (flush adapterNeg w0).2 = posts w0.
Proof.
  apply (flush_negative_count_drops_silently adapterNeg w0).
  - vm_compute. reflexivity.
  - discriminate.
Defined.

Lemma Log_enqueues_at_back_witness :
  chan_buf (queue (Log adapterQueued recordA w0).1) =
    [entry0 ∅ 1 "first"; makeEntry adapterQueued recordA] ∧
  (Log adapterQueued recordA w0).2 = w0.
Proof.
  rewrite (Log_enqueues_at_back adapterQueued recordA w0).
  - split; reflexivity.
  - split; reflexivity.
  - unfold full. vm_compute. intros Hfull. by apply Hfull.
Defined.

Lemma submitAll_keeps_prefix_drops_excess_witness :
  chan_buf (queue (submitAll [recordA; recordErr] adapterFull w0).1.1) =
    [entry0 ∅ 1 "first"] ∧
  prints (submitAll [recordA; recordErr] adapterFull w0).2 =
    [EvPrint (overflowMessage (makeEntry adapterFull recordA));
     EvPrint (overflowMessage (makeEntry adapterFull recordErr))].
Proof.
  apply (submitAll_keeps_prefix_drops_excess [recordA; recordErr] adapterFull w0).
  - repeat constructor; reflexivity.
  - vm_compute. discriminate.
Defined.

Lemma unpromoted_fields_go_to_json_witness :
  jsonFieldsOf fieldsA (Labels (makeEntry adapterA recordA)) !! "obj" = Some (VOther tt) ∧
  jsonFieldsOf fieldsA (Labels (makeEntry adapterA recordA)) !! "ok" = None ∧
  jsonFieldsOf fieldsA (Labels (makeEntry adapterA recordA)) !! "level" = None.
Proof.
  destruct (unpromoted_fields_go_to_json adapterA recordA fieldsA eq_refl) as [_ Hplace].
  rewrite !Hplace. repeat split; reflexivity.
Defined.

Lemma primitive_fields_leave_no_tail_witness :
  Line (makeEntry adapterA recordPrim) = "started".
Proof.
  apply (primitive_fields_leave_no_tail adapterA recordPrim).
  intros fs k v [= <-] Hk.
  destruct v; try reflexivity. exfalso.
  apply lookup_insert_Some in Hk as [[_ ?]|[_ Hk]]; [discriminate|].
  apply lookup_insert_Some in Hk as [[_ ?]|[_ Hk]]; [discriminate|].
  by rewrite lookup_empty in Hk.
Defined.

Lemma NewLokiAdapter_negative_batch_size_panics_witness :
  NewLokiAdapter configNegative w0 = (None, w0).
Proof.
  apply (NewLokiAdapter_negative_batch_size_panics configNegative w0).
  reflexivity.
Defined.

Lemma onTick_flushes_when_due_witness :
  onTick adapterBuf w0 = flush adapterBuf w0 ∧
  onTick adapterA w0 = (adapterA, w0).
Proof.
  split.
  - rewrite (onTick_flushes_when_due adapterBuf w0).
    + rewrite decide_True; [reflexivity|]. split; [discriminate|]. vm_compute. discriminate.
    + split; vm_compute; [reflexivity|discriminate].
  - rewrite (onTick_flushes_when_due adapterA w0).
    + rewrite decide_False; [reflexivity|]. intros [Hbuf _]. by apply Hbuf.
    + split; vm_compute; [reflexivity|discriminate].
Defined.

Lemma onEntry_moves_oldest_entry_witness :
  onEntry adapterQueued w0 =
    ({| cfg := cfg adapterQueued;
        queue := {| chan_cap := 20; chan_buf := [] |};
        buffer := [entry0 ∅ 1 "first"];
        lastFlush := 0 |}, w0).
Proof.
  destruct (onEntry_moves_oldest_entry adapterQueued w0 (entry0 ∅ 1 "first") [])
    as (_ & Hbelow & _); [reflexivity|].
  apply Hbelow. vm_compute. reflexivity.
Defined.

Lemma run_keeps_bounds_witness :
  let actions := [Submit recordA; Select EntryReady; Submit recordErr;
                  Select EntryReady; Select TickReady] in
  within_bounds (run actions adapterA false w0).1.1 ∧
  same_setup adapterA (run actions adapterA false w0).1.1.
Proof.
  apply (run_keeps_bounds _ adapterA false w0).
  - reflexivity.
  - split; vm_compute; [reflexivity|discriminate].
Defined.

Lemma quit_ends_worker_witness :
  (batchProcessor_loop ([EntryReady; TickReady] ++ QuitReady :: [EntryReady])
     adapterQueued w0).1.2 = true ∧
  buffer (batchProcessor_loop ([EntryReady; TickReady] ++ QuitReady :: [EntryReady])
            adapterQueued w0).1.1 = [] ∧
  queue (batchProcessor_loop ([EntryReady; TickReady] ++ QuitReady :: [EntryReady])
           adapterQueued w0).1.1 =
    queue (batchProcessor_loop [EntryReady; TickReady] adapterQueued w0).1.1.
Proof.
  apply (quit_ends_worker [EntryReady; TickReady] [EntryReady] adapterQueued w0).
  intros Hin. apply elem_of_cons in Hin as [?|Hin]; [discriminate|].
  apply elem_of_cons in Hin as [?|Hin]; [discriminate|].
  by apply elem_of_nil in Hin.
Defined.

Lemma buildPayload_keeps_every_entry_witness :
  payloadSize (buildPayload snapshot w0).1 = 3%nat.
Proof.
  destruct (buildPayload_keeps_every_entry snapshot w0) as [_ Hall].
  apply Hall. intros e _. reflexivity.
Defined.

Lemma filled_batch_is_posted_witness :
  let r := run [Submit recordA; Select EntryReady] adapterOne false w0 in
  posts r.2 =
    posts w0 ++ [EvPost (requestFor adapterOne
                   (render_payload (buildPayload [makeEntry adapterOne recordA] w0).1))] ∧
  buffer r.1.1 = [] ∧
  chan_buf (queue r.1.1) = [].
Proof.
  apply (filled_batch_is_posted adapterOne recordA w0).
  - split; reflexivity.
  - reflexivity.
  - reflexivity.
  - vm_compute. discriminate.
  - vm_compute. discriminate.
  - reflexivity.
  - reflexivity.
Defined.

Lemma NewLokiAdapter_starts_within_bounds_witness :
  within_bounds
    {| cfg := cfg adapterA; queue := {| chan_cap := 20; chan_buf := [] |};
       buffer := []; lastFlush := w_now w0 |}.
Proof.
  apply (NewLokiAdapter_starts_within_bounds (cfg adapterA) _ w0 w0).
  - reflexivity.
  - reflexivity.
Defined.

End CoverageRuns.
